(** * All-pairs shortest paths: [floydWarshall] of src/floyd_warshall.cc

    A shallow embedding of the C++ function [floydWarshall] and the
    properties of its three results: the distance matrix, the next matrix
    and the negative-cycle flag.

    Modelling choices, all taken from the source:
    - [int] is a 32-bit two's-complement integer, carried as a [Z]; the one
      arithmetic operation of the function, the sum
      [dist[i][k] + dist[k][j]], is [int_add], which wraps around.  (C++
      leaves signed overflow undefined; wrap-around is what the usual
      targets compute, and every general theorem below that depends on a
      sum either holds for the wrapped value or assumes the sum fits.)
    - [vector<vector<int>>] is a [list (list Z)].  [operator[]] does no
      bounds check in C++, so an access outside the vector is undefined
      there; here it is the error [out_of_bounds].
    - the constructor [vector(n, x)] receives the [int] count converted to
      the unsigned [size_type]; a negative count becomes a size above
      [max_size()] and the constructor throws [std::length_error]: the
      error [length_error].
    - the loops [for (int i = 0; i < numVertices; ++i)] are [for_range]. *)

From Stdlib Require Import ZArith List Lia Bool.
From Stdlib Require String Ascii DecimalString DecimalZ DecimalPos.
Import ListNotations.
Local Open Scope Z_scope.

(** ** Errors and the error monad *)

Inductive error : Type :=
| length_error   (* std::length_error thrown by the vector constructor *)
| out_of_bounds. (* operator[] outside the vector *)

Inductive result (A : Type) : Type :=
| Ok (a : A)
| Err (e : error).
Arguments Ok {A} a.
Arguments Err {A} e.

Definition bind {A B : Type} (m : result A) (f : A -> result B) : result B :=
  match m with
  | Ok a => f a
  | Err e => Err e
  end.

Notation "x <- m ;; f" := (bind m (fun x => f))
  (at level 61, m at next level, right associativity).
Notation "' p <- m ;; f" := (bind m (fun x => match x with p => f end))
  (at level 61, p pattern, m at next level, right associativity).

(** ** 32-bit [int] *)

Definition INT_MAX : Z := 2147483647.
Definition INT_MIN : Z := -2147483648.

Definition int_range (z : Z) : Prop := INT_MIN <= z <= INT_MAX.

(** Reduction of a mathematical integer to its 32-bit two's-complement
    representative. *)
Definition wrap (z : Z) : Z := (z + 2147483648) mod 4294967296 - 2147483648.

(** [a + b] on [int]. *)
Definition int_add (a b : Z) : Z := wrap (a + b).

(** ** std::vector *)

(** [vector<T>(n, x)]. *)
Definition vector_new {A : Type} (n : Z) (x : A) : result (list A) :=
  if n <? 0 then Err length_error else Ok (repeat x (Z.to_nat n)).

(** [v[i]] read. *)
Definition vget {A : Type} (v : list A) (i : Z) : result A :=
  if i <? 0 then Err out_of_bounds
  else match nth_error v (Z.to_nat i) with
       | Some x => Ok x
       | None => Err out_of_bounds
       end.

Fixpoint list_set {A : Type} (l : list A) (i : nat) (x : A) : list A :=
  match l, i with
  | [], _ => []
  | _ :: t, O => x :: t
  | h :: t, S i' => h :: list_set t i' x
  end.

(** [v[i] = x]. *)
Definition vset {A : Type} (v : list A) (i : Z) (x : A) : result (list A) :=
  if i <? 0 then Err out_of_bounds
  else if (Z.to_nat i <? length v)%nat then Ok (list_set v (Z.to_nat i) x)
       else Err out_of_bounds.

(** ** Matrices: [vector<vector<int>>] *)

Definition matrix : Type := list (list Z).

(** [m[i][j]] read. *)
Definition mget (m : matrix) (i j : Z) : result Z :=
  row <- vget m i ;;
  vget row j.

(** [m[i][j] = x]. *)
Definition mset (m : matrix) (i j : Z) (x : Z) : result matrix :=
  row <- vget m i ;;
  row' <- vset row j x ;;
  vset m i row'.

(** ** Counted loops *)

(** [steps] iterations of [body], the loop variable starting at [i] and
    incremented after each iteration. *)
Fixpoint for_steps {S : Type} (steps : nat) (i : Z)
         (body : Z -> S -> result S) (s : S) : result S :=
  match steps with
  | O => Ok s
  | Datatypes.S steps' =>
      s' <- body i s ;;
      for_steps steps' (i + 1) body s'
  end.

(** [for (int i = lo; i < hi; ++i) body]. *)
Definition for_range {S : Type} (lo hi : Z)
           (body : Z -> S -> result S) (s : S) : result S :=
  for_steps (Z.to_nat (hi - lo)) lo body s.

(** ** The function [floydWarshall] *)

(** An input edge [(u, v, weight)]. *)
Definition edge : Type := (Z * Z * Z)%type.

(** The pair of matrices [dist], [next] the function works on. *)
Definition state : Type := (matrix * matrix)%type.

(** Lines 30-31: the two allocations.  The inner vector, an argument of
    the outer constructor, is built first. *)
Definition allocMatrices (numVertices : Z) : result state :=
  drow <- vector_new numVertices INT_MAX ;;
  dist <- vector_new numVertices drow ;;
  nrow <- vector_new numVertices (-1) ;;
  next <- vector_new numVertices nrow ;;
  Ok (dist, next).

(** Lines 33-35: [dist[i][i] = 0]. *)
Definition initDiagonal (numVertices : Z) (dist : matrix) : result matrix :=
  for_range 0 numVertices (fun i dist => mset dist i i 0) dist.

(** Lines 36-41: every edge, in input order, is written into both
    matrices. *)
Fixpoint applyEdges (edges : list edge) (st : state) : result state :=
  match edges with
  | [] => Ok st
  | (u, v, weight) :: rest =>
      let '(dist, next) := st in
      dist' <- mset dist u v weight ;;
      next' <- mset next u v v ;;
      applyEdges rest (dist', next')
  end.

(** Lines 45-48: the body of the innermost loop.  [&&] evaluates its
    operands left to right and stops at the first false one. *)
Definition relax (k i j : Z) (st : state) : result state :=
  let '(dist, next) := st in
  dik <- mget dist i k ;;
  if dik =? INT_MAX then Ok st else
  dkj <- mget dist k j ;;
  if dkj =? INT_MAX then Ok st else
  dij <- mget dist i j ;;
  if int_add dik dkj <? dij then
    dik' <- mget dist i k ;;
    dkj' <- mget dist k j ;;
    dist' <- mset dist i j (int_add dik' dkj') ;;
    nik <- mget next i k ;;
    next' <- mset next i j nik ;;
    Ok (dist', next')
  else Ok st.

(** Lines 43-50: the two inner loops for a fixed intermediate vertex. *)
Definition relaxVia (numVertices k : Z) (st : state) : result state :=
  for_range 0 numVertices
    (fun i st => for_range 0 numVertices (fun j st => relax k i j st) st) st.

(** Lines 42-51: the triple loop. *)
Definition relaxAll (numVertices : Z) (st : state) : result state :=
  for_range 0 numVertices (fun k st => relaxVia numVertices k st) st.

(** Lines 52-58: the scan of the diagonal, left at the first negative
    entry. *)
Fixpoint negativeDiagonal (steps : nat) (i : Z) (dist : matrix) : result bool :=
  match steps with
  | O => Ok false
  | Datatypes.S steps' =>
      d <- mget dist i i ;;
      if d <? 0 then Ok true else negativeDiagonal steps' (i + 1) dist
  end.

(** The matrices as they stand when the triple loop starts (lines 30-41). *)
Definition initMatrices (numVertices : Z) (edges : list edge) : result state :=
  '(dist, next) <- allocMatrices numVertices ;;
  dist <- initDiagonal numVertices dist ;;
  applyEdges edges (dist, next).

Definition floydWarshall (numVertices : Z) (edges : list edge)
  : result (matrix * matrix * bool) :=
  st <- initMatrices numVertices edges ;;
  '(dist, next) <- relaxAll numVertices st ;;
  negativeCycle <- negativeDiagonal (Z.to_nat numVertices) 0 dist ;;
  Ok (dist, next, negativeCycle).

(** ** Reading a matrix in statements *)

(** The entry [m[i][j]] of a matrix, total: 0 outside the matrix. *)
Definition rd (m : matrix) (i j : Z) : Z :=
  nth (Z.to_nat j) (nth (Z.to_nat i) m []) 0.

(** A [n] x [n] matrix. *)
Definition square (n : Z) (m : matrix) : Prop :=
  Z.of_nat (length m) = n /\ Forall (fun row => Z.of_nat (length row) = n) m.

Definition wf (n : Z) (st : state) : Prop :=
  square n (fst st) /\ square n (snd st).

Definition in_range (n : Z) (v : Z) : Prop := 0 <= v < n.

(** The endpoints of every edge are vertices. *)
Definition edges_in_range (n : Z) (edges : list edge) : Prop :=
  Forall (fun e : edge => in_range n (fst (fst e)) /\ in_range n (snd (fst e))) edges.

(** The first test graph of [testFloydWarshall]. *)
Definition edges1 : list edge :=
  [(0, 1, 10); (0, 3, 5); (1, 3, 2); (1, 2, 1); (2, 4, 4);
   (3, 1, 3); (3, 2, 9); (3, 4, 2); (4, 2, 6)].

(** ** The graph of an edge list, and its walks *)

(** The weight of the edge from [u] to [v] in the graph the edge list
    stands for: of several edges with these endpoints the one latest in the
    list counts. *)
Fixpoint edge_weight (edges : list edge) (u v : Z) : option Z :=
  match edges with
  | [] => None
  | (a, b, w) :: rest =>
      match edge_weight rest u v with
      | Some w' => Some w'
      | None => if (a =? u) && (b =? v) then Some w else None
      end
  end.

(** A walk is given by its first vertex [u] and the list [l] of the
    vertices that follow; [walk_weight] is its total weight, or [None]
    when two consecutive vertices are not joined by an edge.  The walk
    ends at [last l u]; the empty list is the walk that stays at [u]. *)
Fixpoint walk_weight (edges : list edge) (u : Z) (l : list Z) : option Z :=
  match l with
  | [] => Some 0
  | v :: l' =>
      match edge_weight edges u v, walk_weight edges v l' with
      | Some w, Some r => Some (w + r)
      | _, _ => None
      end
  end.

(** [l] is a walk from [i] to [j] of weight [w]. *)
Definition is_walk (edges : list edge) (i j : Z) (l : list Z) (w : Z) : Prop :=
  walk_weight edges i l = Some w /\ last l i = j.

(** [d] is the shortest-path weight from [i] to [j]: the weight of some
    walk, and a lower bound of the weight of every walk. *)
Definition shortest (edges : list edge) (i j : Z) (d : Z) : Prop :=
  (exists l, is_walk edges i j l d) /\
  (forall l w, is_walk edges i j l w -> d <= w).

(** No walk leads from [i] to [j]. *)
Definition unreachable (edges : list edge) (i j : Z) : Prop :=
  forall l w, ~ is_walk edges i j l w.

(** The vertices a walk passes through strictly between its two ends. *)
Definition inner (l : list Z) : list Z := removelast l.

(** ** The relaxation step as a function of the entries *)

(** What [relax k i j] leaves in [dist[i][j]], from the three entries it
    reads. *)
Definition relax_fires (dik dkj dij : Z) : bool :=
  negb (dik =? INT_MAX) && negb (dkj =? INT_MAX) && (int_add dik dkj <? dij).

Definition relax_val (dik dkj dij : Z) : Z :=
  if relax_fires dik dkj dij then int_add dik dkj else dij.

(** ** Invariants of the triple loop *)

Definition D (st : state) (i j : Z) : Z := rd (fst st) i j.
Definition N (st : state) (i j : Z) : Z := rd (snd st) i j.

(** Every distance entry is an [int]. *)
Definition int_entries (n : Z) (st : state) : Prop :=
  forall i j, in_range n i -> in_range n j -> int_range (D st i j).

(** Some diagonal entry is negative. *)
Definition neg_diag (n : Z) (st : state) : Prop :=
  exists i, in_range n i /\ D st i i < 0.

(** Every finite entry is the weight of a walk whose inner vertices are
    below [k]. *)
Definition sound (edges : list edge) (n k : Z) (st : state) : Prop :=
  forall i j, in_range n i -> in_range n j -> D st i j <> INT_MAX ->
    exists l, is_walk edges i j l (D st i j) /\ Forall (fun v => v < k) (inner l).

(** Every walk whose inner vertices are below [k] is accounted for: the
    entry of its ends is finite and at most its weight. *)
Definition complete (edges : list edge) (n k : Z) (st : state) : Prop :=
  forall i j l w, in_range n i -> in_range n j ->
    is_walk edges i j l w -> Forall (fun v => v < k) (inner l) ->
    D st i j <> INT_MAX /\ D st i j <= w.

Definition good (edges : list edge) (n k : Z) (st : state) : Prop :=
  sound edges n k st /\ complete edges n k st.

(** The matrices before the round of the intermediate vertex [k]: a
    diagonal entry is negative already, or the matrix is good for [k]. *)
Definition round_inv (edges : list edge) (n k : Z) (st : state) : Prop :=
  wf n st /\ int_entries n st /\ (neg_diag n st \/ good edges n k st).

(** The weights of the edge list are bounded by [W] in absolute value. *)
Definition weights_bounded (W : Z) (edges : list edge) : Prop :=
  Forall (fun e : edge => Z.abs (snd e) <= W) edges.

(** No edge from a vertex to itself has a positive weight. *)
Definition no_positive_self_loop (edges : list edge) : Prop :=
  Forall (fun e : edge => fst (fst e) = snd (fst e) -> snd e <= 0) edges.

(** No edge leads from a vertex to itself. *)
Definition no_self_loop (edges : list edge) : Prop :=
  Forall (fun e : edge => fst (fst e) <> snd (fst e)) edges.

(** Every weight is an [int]. *)
Definition weights_int (edges : list edge) : Prop :=
  Forall (fun e : edge => int_range (snd e)) edges.

(** No weight is the value [INT_MAX], which the matrices use for
    "no path". *)
Definition weights_finite (edges : list edge) : Prop :=
  Forall (fun e : edge => snd e <> INT_MAX) edges.

(** ** Invariants linking the two matrices *)

(** A finite entry off the diagonal, or a nonzero finite entry on it, has
    its next vertex set. *)
Definition next_set_if_finite (n : Z) (st : state) : Prop :=
  forall i j, in_range n i -> in_range n j ->
    N st i j <> -1 \/ D st i j = INT_MAX \/ (i = j /\ D st i i = 0).

(** An entry whose next vertex is set is finite. *)
Definition finite_if_next_set (n : Z) (st : state) : Prop :=
  forall i j, in_range n i -> in_range n j ->
    N st i j = -1 \/ D st i j <> INT_MAX.

(** The diagonal never rises above 0, and its next vertex is set only
    once the entry is negative. *)
Definition diag_next (n : Z) (st : state) : Prop :=
  forall i, in_range n i -> D st i i <= 0 /\ (N st i i = -1 \/ D st i i < 0).

(** The three together, as the triple loop keeps them; the last two
    depend on the edge list. *)
Definition link_inv (n : Z) (edges : list edge) (st : state) : Prop :=
  int_entries n st /\ next_set_if_finite n st /\
  (weights_finite edges -> finite_if_next_set n st) /\
  (no_self_loop edges -> diag_next n st).

(** ** Test inputs *)

(** The matrices [testFloydWarshall] expects for the first test graph. *)
Definition expectedDist1 : matrix :=
  [[0; 8; 9; 5; 7];
   [INT_MAX; 0; 1; 2; 4];
   [INT_MAX; INT_MAX; 0; INT_MAX; 4];
   [INT_MAX; 3; 4; 0; 2];
   [INT_MAX; INT_MAX; 6; INT_MAX; 0]].

Definition expectedNext1 : matrix :=
  [[-1; 3; 3; 3; 3];
   [-1; -1; 2; 3; 3];
   [-1; -1; -1; -1; 4];
   [-1; 1; 1; -1; 4];
   [-1; -1; 2; -1; -1]].

(** The second test graph of [testFloydWarshall]: a negative cycle. *)
Definition edges2 : list edge := [(0, 1, -1); (1, 2, -2); (2, 0, -3)].

(** The third test graph: negative edges, no negative cycle. *)
Definition edges3 : list edge := [(0, 1, -2); (1, 2, 3); (2, 3, -4); (0, 3, 1)].

Definition expectedDist3 : matrix :=
  [[0; -2; 1; -3];
   [INT_MAX; 0; 3; -1];
   [INT_MAX; INT_MAX; 0; -4];
   [INT_MAX; INT_MAX; INT_MAX; 0]].

Definition expectedNext3 : matrix :=
  [[-1; 1; 1; 1];
   [-1; -1; 2; 2];
   [-1; -1; -1; 3];
   [-1; -1; -1; -1]].

(** The matrices of the path 0 -> 1 -> 2 with weights 4 and 3, before
    any relaxation. *)
Definition path_state : state :=
  ([[0; 4; INT_MAX]; [INT_MAX; 0; 3]; [INT_MAX; INT_MAX; 0]],
   [[-1; 1; -1]; [-1; -1; 2]; [-1; -1; -1]]).

(** Two edges whose weights add up to 2^31. *)
Definition edges_overflow : list edge := [(0, 1, 1073741824); (1, 2, 1073741824)].

(** An edge whose weight is [INT_MAX], followed by an edge of weight -1. *)
Definition edges_sentinel : list edge := [(0, 1, 2147483647); (1, 2, -1)].

(** ** Further invariants of the triple loop *)

(** The graph has a closed walk of negative weight. *)
Definition has_negative_cycle (edges : list edge) : Prop :=
  exists v l w, is_walk edges v v l w /\ w < 0.

(** What the matrices say of the graph whatever the weights: a finite
    entry joins two vertices joined by a walk, and a set next vertex is
    the head of an edge from [i] and the start of a walk to [j]. *)
Definition reach_inv (edges : list edge) (n : Z) (st : state) : Prop :=
  forall i j, in_range n i -> in_range n j ->
    (D st i j <> INT_MAX -> exists l w, is_walk edges i j l w) /\
    (N st i j <> -1 ->
     exists e, edge_weight edges i (N st i j) = Some e /\
               exists l w, is_walk edges (N st i j) j l w).

(** The entries as the edge loop leaves them. *)
Definition init_entry (edges : list edge) (i j : Z) : Z :=
  match edge_weight edges i j with
  | Some w => w
  | None => if i =? j then 0 else INT_MAX
  end.

(** A set next vertex [m] of the pair [(i, j)] is a vertex, the edge from
    [i] to [m] exists, and going through it costs no more than the entry
    of the pair. *)
Definition hop_inv (edges : list edge) (n : Z) (st : state) : Prop :=
  forall i j, in_range n i -> in_range n j -> N st i j <> -1 ->
    in_range n (N st i j) /\
    exists e, edge_weight edges i (N st i j) = Some e /\
              D st i j <> INT_MAX /\ D st (N st i j) j <> INT_MAX /\
              e + D st (N st i j) j <= D st i j.

(** The matrices before the round of the intermediate vertex [k], with the
    next matrix: a negative cycle has shown on the diagonal, or both
    matrices are right for [k]. *)
Definition round_hop_inv (edges : list edge) (n k : Z) (st : state) : Prop :=
  wf n st /\ int_entries n st /\
  ((neg_diag n st /\ has_negative_cycle edges) \/
   (good edges n k st /\ hop_inv edges n st)).

(** ** The function [runFloydWarshallSample]

    What the function writes to [cout] is carried as a string; [endl] is
    the newline character it writes. *)

Module Printing.

Import Stdlib.Strings.String Stdlib.Strings.Ascii.
Local Open Scope string_scope.

(** [std::to_string] on an [int]: the decimal digits, after a minus sign
    when the number is negative. *)
Definition to_string (d : Z) : string :=
  DecimalString.NilZero.string_of_int (Z.to_int d).

Definition endl : string := String (ascii_of_nat 10) EmptyString.

(** Line 170: an entry of the distance matrix. *)
Definition showDist (d : Z) : string :=
  if (d =? INT_MAX)%Z then "INF" else to_string d.

(** Line 179: an entry of the next matrix. *)
Definition showNext (n : Z) : string :=
  if (n =? -1)%Z then "N/A" else to_string n.

(** Lines 169-172 and 178-181: the entries of a row, each followed by a
    space, then [endl]. *)
Fixpoint printRow (show : Z -> string) (row : list Z) : string :=
  match row with
  | [] => endl
  | d :: rest => show d ++ " " ++ printRow show rest
  end.

(** Lines 168-173 and 177-182: the rows of a matrix. *)
Fixpoint printMatrix (show : Z -> string) (m : matrix) : string :=
  match m with
  | [] => ""
  | row :: rest => printRow show row ++ printMatrix show rest
  end.

(** Lines 148-184; the edge list of the function is [edges1]. *)
Definition runFloydWarshallSample : result string :=
  '(dist, next, negativeCycle) <- floydWarshall 5 edges1 ;;
  Ok ("Distance Matrix:" ++ endl ++
      printMatrix showDist dist ++
      endl ++ "Next Matrix:" ++ endl ++
      printMatrix showNext next ++
      endl ++ "Negative Cycle: " ++ (if negativeCycle then "Yes" else "No") ++ endl).

(** The two characters that separate entries and rows. *)
Definition is_separator (c : ascii) : bool :=
  (c =? " ")%char || (c =? ascii_of_nat 10)%char.

(** A string that holds neither of them. *)
Fixpoint separator_free (s : string) : bool :=
  match s with
  | EmptyString => true
  | String c rest => negb (is_separator c) && separator_free rest
  end.

End Printing.

(** * Proofs *)

(** ** The error monad *)

Lemma bind_Ok_inv {A B : Type} (m : result A) (f : A -> result B) (b : B) :
  bind m f = Ok b -> exists a, m = Ok a /\ f a = Ok b.
Proof.
  destruct m as [a|e]; simpl; intros H; [eauto | discriminate].
Qed.

Ltac inv_bind H :=
  let x := fresh "x" in
  let Hx := fresh "Hx" in
  apply bind_Ok_inv in H; destruct H as (x & Hx & H).

(** ** Vectors *)

Lemma vget_ok {A : Type} (v : list A) (i : Z) (d : A) :
  0 <= i < Z.of_nat (length v) -> vget v i = Ok (nth (Z.to_nat i) v d).
Proof.
  intros Hi. unfold vget.
  destruct (Z.ltb_spec i 0); [lia|].
  destruct (nth_error v (Z.to_nat i)) eqn:E.
  - f_equal. symmetry. apply nth_error_nth. exact E.
  - apply nth_error_None in E. lia.
Qed.

Lemma vget_inv {A : Type} (v : list A) (i : Z) (x d : A) :
  vget v i = Ok x -> 0 <= i < Z.of_nat (length v) /\ x = nth (Z.to_nat i) v d.
Proof.
  unfold vget. destruct (Z.ltb_spec i 0); [discriminate|].
  destruct (nth_error v (Z.to_nat i)) eqn:E; [|discriminate].
  intros [= <-]. split.
  - assert (Z.to_nat i < length v)%nat by (apply nth_error_Some; congruence). lia.
  - symmetry. apply nth_error_nth. exact E.
Qed.

Lemma list_set_length {A : Type} (l : list A) (i : nat) (x : A) :
  length (list_set l i x) = length l.
Proof.
  revert i. induction l as [|h t IH]; intros [|i]; simpl; auto.
Qed.

Lemma nth_list_set {A : Type} (l : list A) (i a : nat) (x d : A) :
  (i < length l)%nat ->
  nth a (list_set l i x) d = if (a =? i)%nat then x else nth a l d.
Proof.
  revert i a. induction l as [|h t IH]; intros i a Hi; simpl in Hi; [lia|].
  destruct i as [|i]; destruct a as [|a]; simpl; auto.
  apply IH. lia.
Qed.

Lemma Forall_list_set {A : Type} (P : A -> Prop) (l : list A) (i : nat) (x : A) :
  Forall P l -> P x -> Forall P (list_set l i x).
Proof.
  intros Hl Hx. revert i. induction Hl as [|h t Hh Ht IH]; intros [|i]; simpl; auto.
Qed.

Lemma vset_ok {A : Type} (v : list A) (i : Z) (x : A) :
  0 <= i < Z.of_nat (length v) -> vset v i x = Ok (list_set v (Z.to_nat i) x).
Proof.
  intros Hi. unfold vset.
  destruct (Z.ltb_spec i 0); [lia|].
  destruct (Nat.ltb_spec (Z.to_nat i) (length v)); [reflexivity | lia].
Qed.

(** ** Matrices *)

Lemma square_row (n : Z) (m : matrix) (i : Z) :
  square n m -> in_range n i -> Z.of_nat (length (nth (Z.to_nat i) m [])) = n.
Proof.
  intros [Hlen Hrows] Hi. unfold in_range in Hi.
  rewrite Forall_forall in Hrows. apply Hrows. apply nth_In. lia.
Qed.

Lemma mget_ok (n : Z) (m : matrix) (i j : Z) :
  square n m -> in_range n i -> in_range n j -> mget m i j = Ok (rd m i j).
Proof.
  intros Hsq Hi Hj. unfold mget, rd.
  rewrite (vget_ok m i []) by (destruct Hsq; unfold in_range in Hi; lia).
  simpl. apply vget_ok. rewrite (square_row n) by assumption. exact Hj.
Qed.

Lemma mget_inv (m : matrix) (i j : Z) (x : Z) :
  mget m i j = Ok x -> x = rd m i j.
Proof.
  unfold mget, rd. intros H. inv_bind H.
  apply (vget_inv _ _ _ []) in Hx. destruct Hx as [_ ->].
  apply (vget_inv _ _ _ 0) in H. tauto.
Qed.

Lemma mset_ok (n : Z) (m : matrix) (i j x : Z) :
  square n m -> in_range n i -> in_range n j ->
  exists m', mset m i j x = Ok m' /\ square n m' /\
    forall a b, 0 <= a -> 0 <= b ->
      rd m' a b = if (a =? i) && (b =? j) then x else rd m a b.
Proof.
  intros Hsq Hi Hj.
  pose proof (square_row n m i Hsq Hi) as Hrow.
  destruct Hsq as [Hlen Hrows]. unfold in_range in Hi, Hj.
  unfold mset.
  rewrite (vget_ok m i []) by lia. simpl.
  rewrite vset_ok by lia. simpl.
  rewrite vset_ok by lia.
  eexists. split; [reflexivity|]. split.
  - split.
    + rewrite list_set_length. exact Hlen.
    + apply Forall_list_set; [exact Hrows|]. rewrite list_set_length. exact Hrow.
  - intros a b Ha Hb. unfold rd.
    rewrite nth_list_set by lia.
    destruct (Nat.eqb_spec (Z.to_nat a) (Z.to_nat i)) as [E|E].
    + assert (a = i) by lia. subst a. rewrite Z.eqb_refl. simpl.
      rewrite nth_list_set by lia.
      destruct (Nat.eqb_spec (Z.to_nat b) (Z.to_nat j)) as [E'|E'].
      * assert (b = j) by lia. subst b. rewrite Z.eqb_refl. reflexivity.
      * destruct (Z.eqb_spec b j); [subst; congruence | reflexivity].
    + destruct (Z.eqb_spec a i); [subst; congruence | reflexivity].
Qed.

(** ** Counted loops: the invariant rule *)

Lemma for_steps_inv {S : Type} (P : Z -> S -> Prop) (body : Z -> S -> result S) :
  forall (steps : nat) (i : Z) (s : S),
    P i s ->
    (forall a t, i <= a < i + Z.of_nat steps -> P a t ->
                 exists t', body a t = Ok t' /\ P (a + 1) t') ->
    exists s', for_steps steps i body s = Ok s' /\ P (i + Z.of_nat steps) s'.
Proof.
  induction steps as [|steps IH]; intros i s Hs Hbody.
  - exists s. simpl. rewrite Z.add_0_r. auto.
  - destruct (Hbody i s) as (s1 & E1 & H1); [lia | exact Hs |].
    destruct (IH (i + 1) s1 H1) as (s2 & E2 & H2).
    + intros a t Ha Ht. apply Hbody; [lia | exact Ht].
    + exists s2. split.
      * cbn [for_steps]. rewrite E1. exact E2.
      * replace (i + Z.of_nat (Datatypes.S steps)) with (i + 1 + Z.of_nat steps) by lia.
        exact H2.
Qed.

Lemma for_range_inv {S : Type} (P : Z -> S -> Prop) (body : Z -> S -> result S)
      (lo hi : Z) (s : S) :
  lo <= hi ->
  P lo s ->
  (forall a t, lo <= a < hi -> P a t -> exists t', body a t = Ok t' /\ P (a + 1) t') ->
  exists s', for_range lo hi body s = Ok s' /\ P hi s'.
Proof.
  intros Hle Hs Hbody. unfold for_range.
  destruct (for_steps_inv P body (Z.to_nat (hi - lo)) lo s Hs) as (s' & E & H).
  - intros a t Ha. apply Hbody. lia.
  - exists s'. split; [exact E|].
    replace hi with (lo + Z.of_nat (Z.to_nat (hi - lo))) at 1 by lia. exact H.
Qed.

(** ** The relaxation step *)

Lemma relax_ok (n k i j : Z) (st : state) :
  wf n st -> in_range n k -> in_range n i -> in_range n j ->
  exists st', relax k i j st = Ok st' /\ wf n st' /\
    (forall a b, 0 <= a -> 0 <= b ->
       D st' a b = if (a =? i) && (b =? j)
                   then relax_val (D st i k) (D st k j) (D st i j)
                   else D st a b) /\
    (forall a b, 0 <= a -> 0 <= b ->
       N st' a b = if (a =? i) && (b =? j) &&
                      relax_fires (D st i k) (D st k j) (D st i j)
                   then N st i k
                   else N st a b).
Proof.
  intros Hwf Hk Hi Hj. destruct st as [dist next].
  pose proof Hwf as [Hd Hn]. simpl in Hd, Hn.
  assert (Hsame : relax_fires (rd dist i k) (rd dist k j) (rd dist i j) = false ->
    forall a b : Z,
      (rd dist a b = if (a =? i) && (b =? j)
                     then relax_val (rd dist i k) (rd dist k j) (rd dist i j)
                     else rd dist a b) /\
      (rd next a b = if (a =? i) && (b =? j) &&
                        relax_fires (rd dist i k) (rd dist k j) (rd dist i j)
                     then rd next i k
                     else rd next a b)).
  { intros F a b. unfold relax_val. rewrite F, andb_false_r. split; [|reflexivity].
    destruct (Z.eqb_spec a i), (Z.eqb_spec b j); subst; reflexivity. }
  unfold relax, D, N. simpl fst. simpl snd.
  rewrite (mget_ok n dist i k), (mget_ok n dist k j), (mget_ok n dist i j) by assumption.
  simpl bind.
  destruct (rd dist i k =? INT_MAX) eqn:E1.
  { exists (dist, next). split; [reflexivity|]. split; [exact Hwf|].
    split; intros a b _ _; apply Hsame; unfold relax_fires; rewrite E1; reflexivity. }
  destruct (rd dist k j =? INT_MAX) eqn:E2.
  { exists (dist, next). split; [reflexivity|]. split; [exact Hwf|].
    split; intros a b _ _; apply Hsame; unfold relax_fires; rewrite E1, E2; reflexivity. }
  destruct (int_add (rd dist i k) (rd dist k j) <? rd dist i j) eqn:E3.
  - destruct (mset_ok n dist i j (int_add (rd dist i k) (rd dist k j)) Hd Hi Hj)
      as (dist' & Ed & Hd' & Rd).
    rewrite (mget_ok n next i k) by assumption. simpl bind.
    destruct (mset_ok n next i j (rd next i k) Hn Hi Hj) as (next' & En & Hn' & Rn).
    rewrite Ed. simpl bind. rewrite En. simpl bind.
    exists (dist', next'). split; [reflexivity|]. split; [split; assumption|].
    unfold relax_val, relax_fires. rewrite E1, E2, E3. simpl.
    split; intros a b Ha Hb; [rewrite Rd by assumption | rewrite Rn by assumption];
      rewrite ?andb_true_r; reflexivity.
  - exists (dist, next). split; [reflexivity|]. split; [exact Hwf|].
    split; intros a b _ _; apply Hsame; unfold relax_fires; rewrite E1, E2, E3; reflexivity.
Qed.

(** A property of the matrices that every relaxation step preserves holds
    after the two inner loops, which run without error. *)
Lemma relaxVia_inv (n k : Z) (Inv : state -> Prop) (st : state) :
  in_range n k -> wf n st -> Inv st ->
  (forall i j s s', in_range n i -> in_range n j -> wf n s -> Inv s ->
                    relax k i j s = Ok s' -> Inv s') ->
  exists st', relaxVia n k st = Ok st' /\ wf n st' /\ Inv st'.
Proof.
  intros Hk Hwf Hinv Hstep. unfold relaxVia, in_range in *.
  apply (for_range_inv (fun _ s => wf n s /\ Inv s)); [lia | auto |].
  intros i s Hi [Hws His].
  apply (for_range_inv (fun _ s => wf n s /\ Inv s)); [lia | auto |].
  intros j t Hj [Hwt Hit].
  destruct (relax_ok n k i j t) as (t' & E & Hwt' & _); unfold in_range; auto.
  exists t'. split; [exact E|]. split; [exact Hwt'|].
  apply (Hstep i j t t'); unfold in_range; auto.
Qed.

Lemma relaxAll_inv (n : Z) (Inv : state -> Prop) (st : state) :
  0 <= n -> wf n st -> Inv st ->
  (forall k i j s s', in_range n k -> in_range n i -> in_range n j -> wf n s ->
                      Inv s -> relax k i j s = Ok s' -> Inv s') ->
  exists st', relaxAll n st = Ok st' /\ wf n st' /\ Inv st'.
Proof.
  intros Hn Hwf Hinv Hstep. unfold relaxAll.
  apply (for_range_inv (fun _ s => wf n s /\ Inv s)); [lia | auto |].
  intros k s Hk [Hws His].
  apply relaxVia_inv; auto. intros i j t t'; apply Hstep; exact Hk.
Qed.

(** ** The matrices before the triple loop *)

Lemma nth_repeat_lt {A : Type} (x d : A) (n i : nat) :
  (i < n)%nat -> nth i (repeat x n) d = x.
Proof.
  revert i. induction n as [|n IH]; intros i Hi; [lia|].
  destruct i as [|i]; simpl; [reflexivity | apply IH; lia].
Qed.

Lemma square_repeat (n : Z) (x : Z) :
  0 <= n -> square n (repeat (repeat x (Z.to_nat n)) (Z.to_nat n)).
Proof.
  intros Hn. split.
  - rewrite repeat_length. lia.
  - apply Forall_forall. intros row Hrow. apply repeat_spec in Hrow. subst row.
    rewrite repeat_length. lia.
Qed.

Lemma rd_repeat (n x i j : Z) :
  in_range n i -> in_range n j ->
  rd (repeat (repeat x (Z.to_nat n)) (Z.to_nat n)) i j = x.
Proof.
  unfold in_range, rd. intros Hi Hj.
  rewrite nth_repeat_lt by lia. apply nth_repeat_lt. lia.
Qed.

Lemma allocMatrices_ok (n : Z) :
  0 <= n ->
  exists st, allocMatrices n = Ok st /\ wf n st /\
    forall i j, in_range n i -> in_range n j ->
                D st i j = INT_MAX /\ N st i j = -1.
Proof.
  intros Hn. unfold allocMatrices, vector_new.
  destruct (Z.ltb_spec n 0); [lia|]. simpl.
  eexists. split; [reflexivity|]. split.
  - split; apply square_repeat; exact Hn.
  - intros i j Hi Hj. unfold D, N. simpl. split; apply rd_repeat; assumption.
Qed.

Lemma initDiagonal_ok (n : Z) (dist : matrix) :
  0 <= n -> square n dist ->
  exists dist', initDiagonal n dist = Ok dist' /\ square n dist' /\
    forall a b, 0 <= a -> 0 <= b ->
      rd dist' a b = if (a =? b) && (a <? n) then 0 else rd dist a b.
Proof.
  intros Hn Hsq. unfold initDiagonal.
  apply (for_range_inv (fun i d => square n d /\
           forall a b, 0 <= a -> 0 <= b ->
             rd d a b = if (a =? b) && (a <? i) then 0 else rd dist a b)).
  - exact Hn.
  - split; [exact Hsq|]. intros a b Ha Hb.
    destruct (Z.ltb_spec a 0); [lia|]. rewrite andb_false_r. reflexivity.
  - intros i d Hi [Hd Hr].
    destruct (mset_ok n d i i 0 Hd Hi Hi) as (d' & E & Hd' & Hr').
    exists d'. split; [exact E|]. split; [exact Hd'|].
    intros a b Ha Hb. rewrite Hr', Hr by assumption.
    destruct (Z.eqb_spec a i), (Z.eqb_spec b i), (Z.eqb_spec a b),
      (Z.ltb_spec a i), (Z.ltb_spec a (i + 1)); simpl; try reflexivity; lia.
Qed.

Lemma applyEdges_ok (n : Z) (edges : list edge) :
  edges_in_range n edges ->
  forall st, wf n st ->
  exists st', applyEdges edges st = Ok st' /\ wf n st' /\
    forall a b, 0 <= a -> 0 <= b ->
      D st' a b = match edge_weight edges a b with
                  | Some w => w
                  | None => D st a b
                  end /\
      N st' a b = match edge_weight edges a b with
                  | Some _ => b
                  | None => N st a b
                  end.
Proof.
  induction 1 as [|[[u v] w] rest [Hu Hv] Hrest IH]; intros [dist next] [Hd Hn].
  - exists (dist, next). simpl. split; [reflexivity|]. split; [split; assumption|].
    intros a b _ _. split; reflexivity.
  - simpl in Hu, Hv, Hd, Hn. simpl.
    destruct (mset_ok n dist u v w Hd Hu Hv) as (dist' & Ed & Hd' & Rd).
    destruct (mset_ok n next u v v Hn Hu Hv) as (next' & En & Hn' & Rn).
    rewrite Ed. simpl. rewrite En. simpl.
    destruct (IH (dist', next')) as (st' & E & Hwf & R); [split; assumption|].
    exists st'. split; [exact E|]. split; [exact Hwf|].
    intros a b Ha Hb. destruct (R a b Ha Hb) as [RD RN].
    rewrite RD, RN. unfold D, N. simpl.
    rewrite Rd, Rn by assumption.
    destruct (edge_weight rest a b); [auto|].
    rewrite (Z.eqb_sym u a), (Z.eqb_sym v b).
    destruct (Z.eqb_spec a u), (Z.eqb_spec b v); simpl; subst; auto.
Qed.

Lemma initMatrices_ok (n : Z) (edges : list edge) :
  0 <= n -> edges_in_range n edges ->
  exists st, initMatrices n edges = Ok st /\ wf n st /\
    forall i j, in_range n i -> in_range n j ->
      D st i j = match edge_weight edges i j with
                 | Some w => w
                 | None => if i =? j then 0 else INT_MAX
                 end /\
      N st i j = match edge_weight edges i j with
                 | Some _ => j
                 | None => -1
                 end.
Proof.
  intros Hn He. unfold initMatrices.
  destruct (allocMatrices_ok n Hn) as ([dist next] & Ea & [Hd Hnx] & Ra).
  rewrite Ea. simpl in *.
  destruct (initDiagonal_ok n dist Hn Hd) as (dist' & Ei & Hd' & Ri).
  rewrite Ei. simpl.
  destruct (applyEdges_ok n edges He (dist', next)) as (st & E & Hwf & R);
    [split; assumption|].
  exists st. split; [exact E|]. split; [exact Hwf|].
  intros i j Hi Hj. unfold in_range in Hi, Hj.
  destruct (R i j) as [RD RN]; try lia.
  rewrite RD, RN. unfold D, N. simpl.
  destruct (Ra i j Hi Hj) as [RaD RaN]. unfold D, N in RaD, RaN. simpl in RaD, RaN.
  rewrite Ri, RaD, RaN by lia.
  destruct (Z.ltb_spec i n); [|lia]. rewrite andb_true_r. auto.
Qed.

(** ** The scan of the diagonal *)

Lemma negativeDiagonal_spec (dist : matrix) :
  forall (steps : nat) (i : Z) (b : bool),
    negativeDiagonal steps i dist = Ok b ->
    (b = true <-> exists a, i <= a < i + Z.of_nat steps /\ rd dist a a < 0).
Proof.
  induction steps as [|steps IH]; intros i b H.
  - simpl in H. injection H as <-. split; [discriminate|].
    intros (a & Ha & _). lia.
  - cbn [negativeDiagonal] in H. inv_bind H. apply mget_inv in Hx. subst x.
    destruct (Z.ltb_spec (rd dist i i) 0) as [Hneg|Hpos].
    + injection H as <-. split; [|reflexivity].
      intros _. exists i. split; [lia | exact Hneg].
    + apply IH in H. rewrite H. split.
      * intros (a & Ha & Hd). exists a. split; [lia | exact Hd].
      * intros (a & Ha & Hd). exists a. split; [|exact Hd].
        assert (a <> i) by (intros ->; lia). lia.
Qed.

Lemma negativeDiagonal_ok (n : Z) (dist : matrix) :
  square n dist ->
  forall (steps : nat) (i : Z),
    0 <= i -> i + Z.of_nat steps <= n ->
    exists b, negativeDiagonal steps i dist = Ok b.
Proof.
  intros Hsq. induction steps as [|steps IH]; intros i Hi Hle.
  - exists false. reflexivity.
  - cbn [negativeDiagonal].
    rewrite (mget_ok n) by (unfold in_range; auto; lia). simpl bind.
    destruct (rd dist i i <? 0); [exists true; reflexivity|].
    apply IH; lia.
Qed.

(** ** The whole function on valid input *)

(** The function, cut at the end of the triple loop. *)
Lemma floydWarshall_inv (n : Z) (edges : list edge) (dist next : matrix) (flag : bool) :
  floydWarshall n edges = Ok (dist, next, flag) ->
  exists st0, initMatrices n edges = Ok st0 /\
              relaxAll n st0 = Ok (dist, next) /\
              negativeDiagonal (Z.to_nat n) 0 dist = Ok flag.
Proof.
  unfold floydWarshall. intros H. inv_bind H. inv_bind H.
  destruct x0 as [d nx]. inv_bind H. injection H as -> -> ->.
  exists x. auto.
Qed.

Lemma flag_spec (n : Z) (edges : list edge) (dist next : matrix) (flag : bool) :
  floydWarshall n edges = Ok (dist, next, flag) ->
  (flag = true <-> exists i, in_range n i /\ rd dist i i < 0).
Proof.
  intros H. apply floydWarshall_inv in H. destruct H as (st0 & _ & _ & H).
  apply negativeDiagonal_spec in H. rewrite H. unfold in_range.
  split; intros (a & Ha & Hd); exists a; (split; [lia | exact Hd]).
Qed.

(** On valid input the function returns, and what holds of the matrices
    before the triple loop and is kept by every relaxation step holds of the
    result. *)
Lemma floydWarshall_ok (n : Z) (edges : list edge) (Inv : state -> Prop) :
  0 <= n -> edges_in_range n edges ->
  (forall st0, initMatrices n edges = Ok st0 -> wf n st0 -> Inv st0) ->
  (forall k i j s s', in_range n k -> in_range n i -> in_range n j -> wf n s ->
                      Inv s -> relax k i j s = Ok s' -> Inv s') ->
  exists dist next flag,
    floydWarshall n edges = Ok (dist, next, flag) /\
    wf n (dist, next) /\ Inv (dist, next).
Proof.
  intros Hn He Hinit Hstep.
  destruct (initMatrices_ok n edges Hn He) as (st0 & E0 & Hwf0 & _).
  destruct (relaxAll_inv n Inv st0 Hn Hwf0 (Hinit st0 E0 Hwf0) Hstep)
    as ([dist next] & E1 & Hwf1 & Hinv1).
  destruct (negativeDiagonal_ok n dist (proj1 Hwf1) (Z.to_nat n) 0) as (b & E2);
    [lia | lia |].
  exists dist, next, b. unfold floydWarshall.
  rewrite E0. simpl bind. rewrite E1. simpl bind. rewrite E2. simpl bind. auto.
Qed.

Lemma relax_spec (n k i j : Z) (st st' : state) :
  wf n st -> in_range n k -> in_range n i -> in_range n j ->
  relax k i j st = Ok st' ->
  (forall a b, 0 <= a -> 0 <= b ->
     D st' a b = if (a =? i) && (b =? j)
                 then relax_val (D st i k) (D st k j) (D st i j)
                 else D st a b) /\
  (forall a b, 0 <= a -> 0 <= b ->
     N st' a b = if (a =? i) && (b =? j) &&
                    relax_fires (D st i k) (D st k j) (D st i j)
                 then N st i k
                 else N st a b).
Proof.
  intros Hwf Hk Hi Hj E.
  destruct (relax_ok n k i j st Hwf Hk Hi Hj) as (st'' & E' & _ & HD & HN).
  rewrite E in E'. injection E' as <-. auto.
Qed.

(** ** [int] arithmetic *)

Lemma wrap_range (z : Z) : int_range (wrap z).
Proof.
  unfold int_range, wrap, INT_MIN, INT_MAX.
  pose proof (Z.mod_pos_bound (z + 2147483648) 4294967296). lia.
Qed.

Lemma wrap_small (z : Z) : int_range z -> wrap z = z.
Proof.
  unfold int_range, wrap, INT_MIN, INT_MAX. intros H.
  rewrite Z.mod_small by lia. lia.
Qed.

Lemma relax_val_le (x y z : Z) : relax_val x y z <= z.
Proof.
  unfold relax_val, relax_fires.
  destruct (negb (x =? INT_MAX) && negb (y =? INT_MAX)); simpl; [|lia].
  destruct (Z.ltb_spec (int_add x y) z); lia.
Qed.

Lemma relax_val_range (x y z : Z) : int_range z -> int_range (relax_val x y z).
Proof.
  intros Hz. unfold relax_val. destruct (relax_fires x y z); [apply wrap_range | exact Hz].
Qed.

Lemma relax_fires_true (x y z : Z) :
  relax_fires x y z = true <-> x <> INT_MAX /\ y <> INT_MAX /\ int_add x y < z.
Proof.
  unfold relax_fires.
  destruct (Z.eqb_spec x INT_MAX), (Z.eqb_spec y INT_MAX),
    (Z.ltb_spec (int_add x y) z); simpl; split; intros Hf;
    try discriminate; try reflexivity; try tauto; lia.
Qed.

(** ** Edge lists *)

Lemma edge_weight_In (edges : list edge) (u v w : Z) :
  edge_weight edges u v = Some w -> In (u, v, w) edges.
Proof.
  induction edges as [|[[a b] c] rest IH]; simpl; [discriminate|].
  destruct (edge_weight rest u v) as [w'|].
  - intros [= ->]. right. apply IH. reflexivity.
  - destruct (Z.eqb_spec a u), (Z.eqb_spec b v); simpl; try discriminate.
    intros [= ->]. subst. left. reflexivity.
Qed.

Lemma edge_weight_none (edges : list edge) (u v : Z) :
  Forall (fun e : edge => fst (fst e) <> u \/ snd (fst e) <> v) edges ->
  edge_weight edges u v = None.
Proof.
  induction 1 as [|[[a b] c] rest Hne _ IH]; simpl; [reflexivity|].
  rewrite IH. simpl in Hne.
  destruct (Z.eqb_spec a u), (Z.eqb_spec b v); simpl; auto. lia.
Qed.

Lemma edge_weight_last (es1 es2 : list edge) (u v w : Z) :
  Forall (fun e : edge => fst (fst e) <> u \/ snd (fst e) <> v) es2 ->
  edge_weight (es1 ++ (u, v, w) :: es2) u v = Some w.
Proof.
  intros Hes2. induction es1 as [|[[a b] c] rest IH]; simpl.
  - rewrite (edge_weight_none es2 u v Hes2), !Z.eqb_refl. reflexivity.
  - rewrite IH. reflexivity.
Qed.

(** ** The invariants linking the two matrices *)

Section NextInvariants.

Variables (n : Z) (edges : list edge).
Hypothesis Hn : 0 <= n.
Hypothesis Hrange : edges_in_range n edges.
Hypothesis Hint : weights_int edges.

Lemma link_inv_init (st0 : state) :
  initMatrices n edges = Ok st0 -> link_inv n edges st0.
Proof.
  intros E0.
  destruct (initMatrices_ok n edges Hn Hrange) as (st & E & _ & R).
  rewrite E0 in E. injection E as <-.
  pose proof Hint as Hint'. unfold weights_int in Hint'.
  rewrite Forall_forall in Hint'.
  split; [|split; [|split]].
  - intros i j Hi Hj. destruct (R i j Hi Hj) as [-> _].
    destruct (edge_weight edges i j) as [w|] eqn:Ew.
    + apply edge_weight_In in Ew. apply (Hint' _ Ew).
    + unfold int_range, INT_MIN, INT_MAX. destruct (i =? j); lia.
  - intros i j Hi Hj. destruct (R i j Hi Hj) as [RD RN].
    destruct (edge_weight edges i j) as [w|] eqn:Ew.
    + left. rewrite RN. unfold in_range in Hj. lia.
    + destruct (Z.eqb_spec i j) as [->|Hne].
      * right. right. auto.
      * right. left. exact RD.
  - intros Hfin i j Hi Hj. destruct (R i j Hi Hj) as [RD RN].
    unfold weights_finite in Hfin. rewrite Forall_forall in Hfin.
    destruct (edge_weight edges i j) as [w|] eqn:Ew.
    + right. rewrite RD. apply edge_weight_In in Ew. apply (Hfin _ Ew).
    + left. exact RN.
  - intros Hnl i Hi. destruct (R i i Hi Hi) as [RD RN].
    unfold no_self_loop in Hnl. rewrite Forall_forall in Hnl.
    destruct (edge_weight edges i i) as [w|] eqn:Ew.
    + apply edge_weight_In in Ew. apply Hnl in Ew. simpl in Ew. congruence.
    + rewrite RD, Z.eqb_refl. split; [lia | left; exact RN].
Qed.

Lemma link_inv_step (k i j : Z) (s s' : state) :
  in_range n k -> in_range n i -> in_range n j -> wf n s ->
  link_inv n edges s -> relax k i j s = Ok s' -> link_inv n edges s'.
Proof.
  intros Hk Hi Hj Hwf (Hie & Hnf & Hfn & Hdn) E.
  destruct (relax_spec n k i j s s' Hwf Hk Hi Hj E) as [RD RN].
  assert (Hcell : forall a b, in_range n a -> in_range n b ->
            (a = i /\ b = j /\
             relax_fires (D s i k) (D s k j) (D s i j) = true /\
             D s' a b = int_add (D s i k) (D s k j) /\ N s' a b = N s i k) \/
            (D s' a b = D s a b /\ N s' a b = N s a b)).
  { intros a b Ha Hb. unfold in_range in Ha, Hb.
    rewrite RD, RN by lia. unfold relax_val.
    destruct (Z.eqb_spec a i), (Z.eqb_spec b j); simpl; auto.
    destruct (relax_fires (D s i k) (D s k j) (D s i j)) eqn:F; subst;
      [left; repeat split; reflexivity | right; split; reflexivity]. }
  assert (Hnik : relax_fires (D s i k) (D s k j) (D s i j) = true -> N s i k <> -1).
  { intros F. apply relax_fires_true in F. destruct F as (F1 & F2 & F3).
    destruct (Hnf i k Hi Hk) as [H|[H|[-> H]]]; [exact H | contradiction |].
    rewrite H in F3. unfold int_add in F3. simpl in F3.
    rewrite wrap_small in F3 by (apply Hie; assumption). lia. }
  split; [|split; [|split]].
  - intros a b Ha Hb.
    destruct (Hcell a b Ha Hb) as [(_ & _ & _ & -> & _)|[-> _]];
      [apply wrap_range | apply Hie; assumption].
  - intros a b Ha Hb.
    destruct (Hcell a b Ha Hb) as [(-> & -> & F & _ & ->)|[HD HN]].
    + left. apply Hnik. exact F.
    + destruct (Hnf a b Ha Hb) as [H|[H|[-> H]]].
      * left. congruence.
      * right. left. congruence.
      * right. right. split; [reflexivity | congruence].
  - intros Hfin a b Ha Hb. specialize (Hfn Hfin).
    destruct (Hcell a b Ha Hb) as [(-> & -> & F & -> & _)|[-> ->]].
    + right. apply relax_fires_true in F. destruct F as (_ & _ & F).
      pose proof (Hie i j Hi Hj) as [_ Hu]. lia.
    + apply Hfn; assumption.
  - intros Hnl a Ha. specialize (Hdn Hnl).
    destruct (Hcell a a Ha Ha) as [(-> & <- & F & -> & _)|[-> ->]];
      [|apply Hdn; exact Ha].
    apply relax_fires_true in F. destruct (Hdn i Hi) as [Hle _].
    split; [lia | right; lia].
Qed.

End NextInvariants.

(** ** Walks *)

Lemma last_cons_default (v u : Z) (l : list Z) : last (v :: l) u = last l v.
Proof.
  revert v u. induction l as [|a l IH]; intros v u; [reflexivity|].
  change (last (v :: a :: l) u) with (last (a :: l) u).
  rewrite (IH a u), (IH a v). reflexivity.
Qed.

Lemma last_app_walk (l1 l2 : list Z) (u : Z) :
  last (l1 ++ l2) u = last l2 (last l1 u).
Proof.
  revert u. induction l1 as [|a l1 IH]; intros u; [reflexivity|].
  rewrite <- app_comm_cons, !last_cons_default. apply IH.
Qed.

Lemma inner_cons (v : Z) (l : list Z) :
  l <> [] -> inner (v :: l) = v :: inner l.
Proof.
  unfold inner. destruct l; [congruence | reflexivity].
Qed.

Lemma Forall_inner_last (P : Z -> Prop) (l : list Z) (d : Z) :
  l <> [] -> Forall P (inner l) -> P (last l d) -> Forall P l.
Proof.
  intros Hne Hin Hlast. rewrite (app_removelast_last d Hne).
  apply Forall_app. split; [exact Hin | constructor; [exact Hlast | constructor]].
Qed.

Lemma dup_split (l : list Z) :
  NoDup l \/ exists v l1 l2 l3, l = l1 ++ v :: l2 ++ v :: l3.
Proof.
  induction l as [|a t IH]; [left; constructor|].
  destruct IH as [Hnd | (v & l1 & l2 & l3 & ->)].
  - destruct (in_dec Z.eq_dec a t) as [Hin|Hnin].
    + right. apply in_split in Hin. destruct Hin as (l2 & l3 & ->).
      exists a, [], l2, l3. reflexivity.
    + left. constructor; assumption.
  - right. exists v, (a :: l1), l2, l3. reflexivity.
Qed.

Lemma NoDup_bounded_length (n : Z) (l : list Z) :
  0 <= n -> NoDup l -> Forall (in_range n) l -> Z.of_nat (length l) <= n.
Proof.
  intros Hn Hnd Hall.
  assert (Hincl : incl l (map Z.of_nat (seq 0 (Z.to_nat n)))).
  { intros x Hx. rewrite Forall_forall in Hall. specialize (Hall x Hx).
    unfold in_range in Hall.
    replace x with (Z.of_nat (Z.to_nat x)) by lia.
    apply in_map, in_seq. lia. }
  apply (NoDup_incl_length Hnd) in Hincl.
  rewrite length_map, length_seq in Hincl. lia.
Qed.

Section Walks.

Variables (n : Z) (edges : list edge).
Hypothesis Hrange : edges_in_range n edges.

Lemma edge_weight_range (u v w : Z) :
  edge_weight edges u v = Some w -> in_range n u /\ in_range n v.
Proof.
  intros E. apply edge_weight_In in E.
  unfold edges_in_range in Hrange. rewrite Forall_forall in Hrange.
  apply (Hrange _ E).
Qed.

Lemma walk_cons_inv (u v : Z) (l : list Z) (w : Z) :
  walk_weight edges u (v :: l) = Some w ->
  exists e r, edge_weight edges u v = Some e /\
              walk_weight edges v l = Some r /\ w = e + r.
Proof.
  simpl. destruct (edge_weight edges u v) as [e|]; [|discriminate].
  destruct (walk_weight edges v l) as [r|]; [|discriminate].
  intros [= <-]. eauto.
Qed.

Lemma walk_cons (u v : Z) (l : list Z) (e r : Z) :
  edge_weight edges u v = Some e -> walk_weight edges v l = Some r ->
  walk_weight edges u (v :: l) = Some (e + r).
Proof.
  intros E R. simpl. rewrite E, R. reflexivity.
Qed.

Lemma walk_vertices (l : list Z) :
  forall u w, walk_weight edges u l = Some w -> Forall (in_range n) l.
Proof.
  induction l as [|v l IH]; intros u w H; [constructor|].
  apply walk_cons_inv in H. destruct H as (e & r & E & R & _).
  constructor; [apply (edge_weight_range u v e E) | apply (IH v r R)].
Qed.

Lemma walk_app (l1 l2 : list Z) :
  forall u w1 w2,
    walk_weight edges u l1 = Some w1 ->
    walk_weight edges (last l1 u) l2 = Some w2 ->
    walk_weight edges u (l1 ++ l2) = Some (w1 + w2).
Proof.
  induction l1 as [|v l1 IH]; intros u w1 w2 H1 H2.
  - simpl in *. injection H1 as <-. rewrite H2. reflexivity.
  - apply walk_cons_inv in H1. destruct H1 as (e & r & E & R & ->).
    rewrite last_cons_default in H2.
    rewrite <- app_comm_cons, <- Z.add_assoc.
    apply walk_cons; [exact E | apply IH; assumption].
Qed.

Lemma walk_app_inv (l1 l2 : list Z) :
  forall u w,
    walk_weight edges u (l1 ++ l2) = Some w ->
    exists w1 w2, walk_weight edges u l1 = Some w1 /\
                  walk_weight edges (last l1 u) l2 = Some w2 /\ w = w1 + w2.
Proof.
  induction l1 as [|v l1 IH]; intros u w H.
  - exists 0, w. simpl in *. auto.
  - rewrite <- app_comm_cons in H. apply walk_cons_inv in H.
    destruct H as (e & r & E & R & ->).
    apply IH in R. destruct R as (w1 & w2 & R1 & R2 & ->).
    exists (e + w1), w2. rewrite last_cons_default.
    split; [apply walk_cons; assumption | split; [exact R2 | lia]].
Qed.

(** The weight of a walk of [m] edges lies within [m * W]. *)
Lemma walk_weight_bound (W : Z) (l : list Z) :
  weights_bounded W edges ->
  forall u w, walk_weight edges u l = Some w ->
              Z.abs w <= Z.of_nat (length l) * W.
Proof.
  intros HW. induction l as [|v l IH]; intros u w H.
  - simpl in H. injection H as <-. simpl. lia.
  - apply walk_cons_inv in H. destruct H as (e & r & E & R & ->).
    apply IH in R. apply edge_weight_In in E.
    unfold weights_bounded in HW. rewrite Forall_forall in HW.
    apply HW in E. simpl in E.
    change (length (v :: l)) with (Datatypes.S (length l)). lia.
Qed.

(** Cutting closed sub-walks out of a walk.  When no closed walk with
    inner vertices below [k] has a negative weight, every walk with inner
    vertices below [k] can be replaced by one with the same ends, no
    greater weight, and no vertex repeated before its end. *)
Section CutCycles.

Variable k : Z.
Hypothesis Hcycle : forall v c wc,
    in_range n v -> walk_weight edges v c = Some wc -> last c v = v ->
    Forall (fun x => x < k) (inner c) -> 0 <= wc.

Lemma cut_cycles (m : nat) :
  forall u l w,
    (length l <= m)%nat -> in_range n u ->
    walk_weight edges u l = Some w ->
    Forall (fun x => x < k) (inner l) ->
    exists l' w',
      walk_weight edges u l' = Some w' /\ last l' u = last l u /\
      Forall (fun x => x < k) (inner l') /\
      NoDup (u :: inner l') /\ w' <= w.
Proof.
  induction m as [|m IH]; intros u l w Hlen Hu Hw Hin.
  - destruct l; [|simpl in Hlen; lia].
    exists [], w. repeat split; auto; try lia.
    constructor; [intros [] | constructor].
  - destruct (dup_split (u :: inner l)) as [Hnd | (v & l1 & l2 & l3 & Hsplit)].
    + exists l, w. repeat split; auto; lia.
    + assert (Hne : l <> []).
      { intros ->. destruct l1 as [|? [|? ?]]; simpl in Hsplit; try discriminate.
        destruct l2; discriminate. }
      pose proof (app_removelast_last u Hne) as Hl. fold (inner l) in Hl.
      set (j := last l u) in *.
      destruct l1 as [|u' l1].
      * (* the repeated vertex is the first one *)
        simpl in Hsplit. injection Hsplit as <- Hinner.
        assert (El : l = (l2 ++ [u]) ++ (l3 ++ [j])).
        { rewrite Hl, Hinner. repeat (rewrite <- app_assoc; simpl). reflexivity. }
        rewrite Hinner in Hin. apply Forall_app in Hin. destruct Hin as [Hin2 Hin3].
        apply Forall_cons_iff in Hin3. destruct Hin3 as [Huk Hin3].
        rewrite El in Hw. apply walk_app_inv in Hw.
        destruct Hw as (w1 & w2 & Hw1 & Hw2 & ->).
        rewrite last_last in Hw2.
        assert (0 <= w1).
        { apply (Hcycle u (l2 ++ [u]) w1 Hu Hw1).
          - apply last_last.
          - unfold inner. rewrite removelast_last. exact Hin2. }
        destruct (IH u (l3 ++ [j]) w2) as (l' & w' & H1 & H2 & H3 & H4 & H5); auto.
        { assert (length l = length (l2 ++ [u]) + length (l3 ++ [j]))%nat
            by (rewrite El at 1; apply length_app).
          rewrite (length_app l2) in H0. simpl in H0. lia. }
        { unfold inner. rewrite removelast_last. exact Hin3. }
        exists l', w'. repeat split; auto; [|lia].
        rewrite H2. apply last_last.
      * (* the repeated vertex comes later *)
        simpl in Hsplit. injection Hsplit as <- Hinner.
        assert (El : l = (l1 ++ [v]) ++ (l2 ++ [v]) ++ (l3 ++ [j])).
        { rewrite Hl, Hinner. repeat (rewrite <- app_assoc; simpl). reflexivity. }
        rewrite Hinner in Hin. apply Forall_app in Hin. destruct Hin as [Hin1 Hin].
        apply Forall_cons_iff in Hin. destruct Hin as [Hvk Hin].
        apply Forall_app in Hin. destruct Hin as [Hin2 Hin3].
        apply Forall_cons_iff in Hin3. destruct Hin3 as [_ Hin3].
        pose proof (walk_vertices _ _ _ Hw) as Hverts.
        rewrite El in Hw. apply walk_app_inv in Hw.
        destruct Hw as (wa & wbc & Hwa & Hwbc & ->).
        rewrite last_last in Hwbc. apply walk_app_inv in Hwbc.
        destruct Hwbc as (wb & wc & Hwb & Hwc & ->).
        rewrite last_last in Hwc.
        assert (Hv : in_range n v).
        { rewrite El in Hverts. apply Forall_app in Hverts. destruct Hverts as [Hv _].
          apply Forall_app in Hv. destruct Hv as [_ Hv].
          apply Forall_cons_iff in Hv. tauto. }
        assert (0 <= wb).
        { apply (Hcycle v (l2 ++ [v]) wb Hv Hwb).
          - apply last_last.
          - unfold inner. rewrite removelast_last. exact Hin2. }
        destruct (IH u ((l1 ++ [v]) ++ (l3 ++ [j])) (wa + wc))
          as (l' & w' & H1 & H2 & H3 & H4 & H5); auto.
        { assert (length l = length (l1 ++ [v]) + (length (l2 ++ [v]) + length (l3 ++ [j])))%nat
            by (rewrite El at 1; rewrite !length_app; reflexivity).
          rewrite length_app. rewrite (length_app l2) in H0. simpl in H0. lia. }
        { apply walk_app; [exact Hwa | rewrite last_last; exact Hwc]. }
        { unfold inner. rewrite app_assoc, removelast_last.
          apply Forall_app. split; [|exact Hin3].
          apply Forall_app. split; [exact Hin1 | constructor; [exact Hvk | constructor]]. }
        exists l', w'. repeat split; auto; [|lia].
        rewrite H2, app_assoc. rewrite last_last. reflexivity.
Qed.

End CutCycles.

End Walks.

(** ** The relaxation value when nothing overflows *)

Lemma relax_val_exact (x y z : Z) :
  x <> INT_MAX -> y <> INT_MAX -> int_range (x + y) ->
  relax_val x y z = Z.min z (x + y).
Proof.
  intros Hx Hy Hsum. unfold relax_val, relax_fires, int_add.
  rewrite wrap_small by exact Hsum.
  destruct (Z.eqb_spec x INT_MAX), (Z.eqb_spec y INT_MAX); try contradiction.
  simpl. destruct (Z.ltb_spec (x + y) z); lia.
Qed.

Lemma relax_val_zero_r (x : Z) : int_range x -> relax_val x 0 x = x.
Proof.
  intros Hx. unfold relax_val.
  destruct (relax_fires x 0 x) eqn:F; [|reflexivity].
  apply relax_fires_true in F. unfold int_add in F.
  rewrite Z.add_0_r, wrap_small in F by exact Hx. lia.
Qed.

Lemma relax_val_zero_l (y : Z) : int_range y -> relax_val 0 y y = y.
Proof.
  intros Hy. unfold relax_val.
  destruct (relax_fires 0 y y) eqn:F; [|reflexivity].
  apply relax_fires_true in F. unfold int_add in F.
  rewrite Z.add_0_l, wrap_small in F by exact Hy. lia.
Qed.

Lemma neg_diag_dec (n : Z) (st : state) :
  neg_diag n st \/ (forall v, in_range n v -> 0 <= D st v v).
Proof.
  assert (H : forall m : nat,
             (exists i, 0 <= i < Z.of_nat m /\ D st i i < 0) \/
             (forall v, 0 <= v < Z.of_nat m -> 0 <= D st v v)).
  { induction m as [|m [(i & Hi & Hd)|IH]].
    - right. intros v Hv. lia.
    - left. exists i. split; [lia | exact Hd].
    - destruct (Z_lt_dec (D st (Z.of_nat m) (Z.of_nat m)) 0) as [Hneg|Hpos].
      + left. exists (Z.of_nat m). split; [lia | exact Hneg].
      + right. intros v Hv.
        destruct (Z.eq_dec v (Z.of_nat m)) as [->|Hne]; [lia | apply IH; lia]. }
  unfold neg_diag, in_range.
  destruct (H (Z.to_nat n)) as [(i & Hi & Hd)|Hall].
  - left. exists i. split; [lia | exact Hd].
  - right. intros v Hv. apply Hall. lia.
Qed.

(** ** One round of the two inner loops *)

(** The two inner loops for the intermediate vertex [k] run without error,
    lower entries only, and, when [dist[k][k]] is 0 at their start, leave in
    every entry the relaxation value computed from the matrix as it stood
    at their start: row [k] and column [k] do not change under them. *)
Lemma relaxVia_spec (n k : Z) (st : state) :
  wf n st -> int_entries n st -> in_range n k ->
  exists st', relaxVia n k st = Ok st' /\ wf n st' /\ int_entries n st' /\
    (forall a b, in_range n a -> in_range n b -> D st' a b <= D st a b) /\
    (D st k k = 0 ->
     forall a b, in_range n a -> in_range n b ->
       D st' a b = relax_val (D st a k) (D st k b) (D st a b)).
Proof.
  intros Hwf Hint Hk.
  set (rv := fun a b => relax_val (D st a k) (D st k b) (D st a b)).
  assert (Hrow : D st k k = 0 -> forall a, in_range n a -> rv a k = D st a k).
  { intros H0 a Ha. unfold rv. rewrite H0. apply relax_val_zero_r, Hint; assumption. }
  assert (Hcol : D st k k = 0 -> forall b, in_range n b -> rv k b = D st k b).
  { intros H0 b Hb. unfold rv. rewrite H0. apply relax_val_zero_l, Hint; assumption. }
  unfold relaxVia.
  pose (Qi := fun (i : Z) (t : state) =>
          wf n t /\ int_entries n t /\
          (forall a b, in_range n a -> in_range n b -> D t a b <= D st a b) /\
          (D st k k = 0 -> forall a b, in_range n a -> in_range n b ->
             D t a b = if a <? i then rv a b else D st a b)).
  destruct (for_range_inv Qi
              (fun i st => for_range 0 n (fun j st => relax k i j st) st) 0 n st)
    as (st' & E & Hwf' & Hint' & Hmono & Hform).
  - unfold in_range in Hk. lia.
  - unfold Qi. split; [exact Hwf|]. split; [exact Hint|]. split.
    + intros a b _ _. lia.
    + intros _ a b Ha Hb. unfold in_range in Ha.
      destruct (Z.ltb_spec a 0); [lia | reflexivity].
  - intros i s Hi (Hws & Hints & Hmonos & Hforms).
    pose (Qj := fun (j : Z) (t : state) =>
            wf n t /\ int_entries n t /\
            (forall a b, in_range n a -> in_range n b -> D t a b <= D st a b) /\
            (D st k k = 0 -> forall a b, in_range n a -> in_range n b ->
               D t a b = if (a <? i) || ((a =? i) && (b <? j))
                         then rv a b else D st a b)).
    destruct (for_range_inv Qj (fun j st => relax k i j st) 0 n s)
      as (s' & Es & Hws' & Hints' & Hmonos' & Hforms').
    + lia.
    + unfold Qj. split; [exact Hws|]. split; [exact Hints|]. split; [exact Hmonos|].
      intros H0 a b Ha Hb. rewrite (Hforms H0 a b Ha Hb).
      unfold in_range in Hb. destruct (Z.ltb_spec b 0); [lia|].
      rewrite andb_false_r, orb_false_r. reflexivity.
    + intros j t Hj (Hwt & Hintt & Hmonot & Hformt).
      destruct (relax_ok n k i j t Hwt Hk Hi Hj) as (t' & Et & Hwt' & RD & _).
      exists t'. split; [exact Et|]. unfold Qj.
      split; [exact Hwt'|]. split; [|split].
      * intros a b Ha Hb. unfold in_range in Ha, Hb. rewrite RD by lia.
        destruct ((a =? i) && (b =? j));
          [apply relax_val_range|]; apply Hintt; assumption.
      * intros a b Ha Hb. pose proof Ha as Ha'. pose proof Hb as Hb'.
        unfold in_range in Ha', Hb'. rewrite RD by lia.
        destruct (Z.eqb_spec a i), (Z.eqb_spec b j); simpl;
          try (apply Hmonot; assumption).
        subst a b.
        pose proof (relax_val_le (D t i k) (D t k j) (D t i j)).
        pose proof (Hmonot i j Hi Hj). lia.
      * intros H0 a b Ha Hb. pose proof Ha as Ha'. pose proof Hb as Hb'.
        unfold in_range in Ha', Hb'. rewrite RD by lia.
        assert (Eik : D t i k = D st i k).
        { rewrite (Hformt H0 i k Hi Hk).
          destruct ((i <? i) || ((i =? i) && (k <? j))); [apply Hrow; assumption | reflexivity]. }
        assert (Ekj : D t k j = D st k j).
        { rewrite (Hformt H0 k j Hk Hj).
          destruct ((k <? i) || ((k =? i) && (j <? j))); [apply Hcol; assumption | reflexivity]. }
        assert (Eij : D t i j = D st i j).
        { rewrite (Hformt H0 i j Hi Hj).
          destruct (Z.ltb_spec i i); [lia|]. destruct (Z.ltb_spec j j); [lia|].
          rewrite andb_false_r. reflexivity. }
        rewrite Eik, Ekj, Eij. fold (rv i j).
        rewrite (Hformt H0 a b Ha Hb).
        destruct (Z.eqb_spec a i), (Z.eqb_spec b j), (Z.ltb_spec a i),
          (Z.ltb_spec b j), (Z.ltb_spec b (j + 1)); simpl; subst;
          try reflexivity; lia.
    + exists s'. split; [exact Es|]. unfold Qi.
      split; [exact Hws'|]. split; [exact Hints'|]. split; [exact Hmonos'|].
      intros H0 a b Ha Hb. rewrite (Hforms' H0 a b Ha Hb).
      unfold in_range in Ha, Hb.
      destruct (Z.eqb_spec a i), (Z.ltb_spec a i), (Z.ltb_spec b n),
        (Z.ltb_spec a (i + 1)); simpl; try reflexivity; lia.
  - exists st'. split; [exact E|]. split; [exact Hwf'|]. split; [exact Hint'|].
    split; [exact Hmono|].
    intros H0 a b Ha Hb. rewrite (Hform H0 a b Ha Hb).
    unfold in_range in Ha. destruct (Z.ltb_spec a n); [reflexivity | lia].
Qed.

(** ** The triple loop computes shortest-path weights *)

Section Correctness.

Variables (n W : Z) (edges : list edge).
Hypothesis Hn : 0 <= n.
Hypothesis Hrange : edges_in_range n edges.
Hypothesis HW : weights_bounded W edges.
Hypothesis HnW : n * W < 1073741824.
Hypothesis Hself : no_positive_self_loop edges.

Lemma edge_small (u v e : Z) :
  edge_weight edges u v = Some e -> Z.abs e < 1073741824.
Proof.
  intros E. destruct (edge_weight_range n edges Hrange u v e E) as [Hu _].
  apply edge_weight_In in E.
  unfold weights_bounded in HW. rewrite Forall_forall in HW.
  apply HW in E. simpl in E. unfold in_range in Hu. nia.
Qed.

Lemma walk_last_range (l : list Z) (u w : Z) :
  in_range n u -> walk_weight edges u l = Some w -> in_range n (last l u).
Proof.
  intros Hu Hw. destruct l as [|v l]; [exact Hu|].
  apply (walk_vertices n edges Hrange) in Hw.
  rewrite Forall_forall in Hw. apply Hw.
  rewrite (app_removelast_last u (l := v :: l)) at 2 by discriminate.
  apply in_elt.
Qed.

Lemma walk_inner_below (l : list Z) (u w : Z) :
  walk_weight edges u l = Some w -> Forall (fun v => v < n) (inner l).
Proof.
  intros Hw. apply (walk_vertices n edges Hrange) in Hw.
  destruct l as [|v l]; [constructor|].
  rewrite (app_removelast_last u (l := v :: l)) in Hw by discriminate.
  apply Forall_app in Hw. destruct Hw as [Hw _].
  unfold inner. eapply Forall_impl; [|exact Hw].
  unfold in_range. intros a Ha. lia.
Qed.

Lemma good_init (st0 : state) :
  initMatrices n edges = Ok st0 ->
  wf n st0 /\ int_entries n st0 /\ good edges n 0 st0.
Proof.
  intros E0.
  destruct (initMatrices_ok n edges Hn Hrange) as (st & E & Hwf & R).
  rewrite E0 in E. injection E as <-.
  split; [exact Hwf|]. split; [|split].
  - intros i j Hi Hj. destruct (R i j Hi Hj) as [-> _].
    unfold int_range, INT_MIN, INT_MAX.
    destruct (edge_weight edges i j) as [e|] eqn:Ee.
    + apply edge_small in Ee. lia.
    + destruct (i =? j); lia.
  - intros i j Hi Hj Hfin. destruct (R i j Hi Hj) as [RD _].
    rewrite RD in *.
    destruct (edge_weight edges i j) as [e|] eqn:Ee.
    + exists [j]. split; [|constructor].
      split; [|reflexivity]. simpl. rewrite Ee. f_equal. lia.
    + destruct (Z.eqb_spec i j) as [->|Hne]; [|contradiction].
      exists []. split; [|constructor]. split; reflexivity.
  - intros i j l w Hi Hj [Hw Hlast] Hin. destruct (R i j Hi Hj) as [RD _].
    destruct l as [|v [|v' l]].
    + simpl in Hw, Hlast. injection Hw as <-. subst j.
      rewrite RD, Z.eqb_refl.
      destruct (edge_weight edges i i) as [e|] eqn:Ee; [|unfold INT_MAX; lia].
      pose proof (edge_small _ _ _ Ee).
      apply edge_weight_In in Ee.
      pose proof Hself as Hs. unfold no_positive_self_loop in Hs.
      rewrite Forall_forall in Hs. specialize (Hs _ Ee eq_refl). simpl in Hs.
      unfold INT_MAX. lia.
    + simpl in Hlast. subst v.
      apply (walk_cons_inv edges) in Hw. destruct Hw as (e & r & Ee & Er & ->).
      simpl in Er. injection Er as <-.
      rewrite RD, Ee. pose proof (edge_small _ _ _ Ee). unfold INT_MAX. lia.
    + exfalso. apply (walk_vertices n edges Hrange) in Hw.
      apply Forall_cons_iff in Hw. destruct Hw as [Hv _].
      simpl in Hin. apply Forall_cons_iff in Hin. destruct Hin as [Hv0 _].
      unfold in_range in Hv. lia.
Qed.

(** In a good matrix whose diagonal is nowhere negative every finite
    entry is the weight of a walk that repeats no vertex, and so is
    small. *)
Lemma good_bound (k : Z) (st : state) :
  good edges n k st ->
  (forall v, in_range n v -> 0 <= D st v v) ->
  forall i j, in_range n i -> in_range n j -> D st i j <> INT_MAX ->
              Z.abs (D st i j) < 1073741824.
Proof.
  intros [Hsound Hcomplete] Hdiag i j Hi Hj Hfin.
  destruct (Hsound i j Hi Hj Hfin) as (l & [Hw Hlast] & Hin).
  destruct (cut_cycles n edges Hrange k) with (m := length l) (u := i) (l := l)
                                              (w := D st i j)
    as (l' & w' & Hw' & Hlast' & Hin' & Hnd & Hle); auto.
  { intros v c wc Hv Hc Hclosed Hcin.
    destruct (Hcomplete v v c wc Hv Hv (conj Hc Hclosed) Hcin) as [_ Hle].
    specialize (Hdiag v Hv). lia. }
  destruct (Hcomplete i j l' w' Hi Hj) as [_ Hge]; auto.
  { split; [exact Hw' | congruence]. }
  assert (Hw'' : w' = D st i j) by lia. subst w'.
  pose proof (walk_weight_bound edges W l' HW i _ Hw') as Hb.
  assert (Hlen : Z.of_nat (length l') <= n).
  { destruct l' as [|v l']; [simpl; lia|].
    assert (Hvs : Forall (in_range n) (i :: inner (v :: l'))).
    { constructor; [exact Hi|].
      apply (walk_vertices n edges Hrange) in Hw'.
      rewrite (app_removelast_last i (l := v :: l')) in Hw' by discriminate.
      apply Forall_app in Hw'. tauto. }
    apply (NoDup_bounded_length n _ Hn Hnd) in Hvs.
    change (length (i :: inner (v :: l')))
      with (Datatypes.S (length (inner (v :: l')))) in Hvs.
    assert (Hlen : length (v :: l') = Datatypes.S (length (inner (v :: l')))).
    { rewrite (app_removelast_last i (l := v :: l')) at 1 by discriminate.
      rewrite length_app. unfold inner. simpl length. lia. }
    rewrite Hlen. exact Hvs. }
  destruct (Z_le_dec 0 W) as [HW0|HW0].
  - assert (Z.of_nat (length l') * W <= n * W)
      by (apply Z.mul_le_mono_nonneg_r; lia).
    lia.
  - assert (Z.of_nat (length l') * W <= 0) by nia.
    lia.
Qed.

Section Round.

Variables (k : Z) (st st' : state).
Hypothesis Hk : in_range n k.
Hypothesis Hgood : good edges n k st.
Hypothesis Hint : int_entries n st.
Hypothesis Hkk : D st k k = 0.
Hypothesis Hsmall : forall i j, in_range n i -> in_range n j ->
                                D st i j <> INT_MAX -> Z.abs (D st i j) < 1073741824.
Hypothesis Hround : forall a b, in_range n a -> in_range n b ->
                                D st' a b = relax_val (D st a k) (D st k b) (D st a b).

(** An edge followed by a walk already accounted for. *)
Lemma via_prepend (u v t e : Z) :
  in_range n u -> in_range n t ->
  edge_weight edges u v = Some e -> v < k -> D st v t <> INT_MAX ->
  D st u t <> INT_MAX /\ D st u t <= e + D st v t.
Proof.
  intros Hu Ht Ee Hvk Hfin.
  destruct (edge_weight_range n edges Hrange u v e Ee) as [_ Hv].
  destruct Hgood as [Hsound Hcomplete].
  destruct (Hsound v t Hv Ht Hfin) as (l & [Hw Hlast] & Hin).
  apply (Hcomplete u t (v :: l)); [exact Hu | exact Ht | | ].
  - split; [apply walk_cons; assumption|].
    rewrite last_cons_default. exact Hlast.
  - destruct l as [|v' l]; [constructor|].
    rewrite inner_cons by discriminate. constructor; assumption.
Qed.

Lemma edge_accounted (u v e : Z) :
  in_range n u -> edge_weight edges u v = Some e ->
  D st u v <> INT_MAX /\ D st u v <= e.
Proof.
  intros Hu Ee.
  destruct (edge_weight_range n edges Hrange u v e Ee) as [_ Hv].
  destruct Hgood as [_ Hcomplete].
  apply (Hcomplete u v [v]); [exact Hu | exact Hv | | constructor].
  split; [|reflexivity]. simpl. rewrite Ee. f_equal. lia.
Qed.

(** A walk whose inner vertices are at most [k] is accounted for at the
    start of round [k] either directly or through [k]. *)
Lemma via_k (l : list Z) :
  forall u w,
    in_range n u -> walk_weight edges u l = Some w ->
    Forall (fun v => v < k + 1) (inner l) ->
    (D st u (last l u) <> INT_MAX /\ D st u (last l u) <= w) \/
    (D st u k <> INT_MAX /\ D st k (last l u) <> INT_MAX /\
     D st u k + D st k (last l u) <= w).
Proof.
  induction l as [|v l IH]; intros u w Hu Hw Hin.
  - left. destruct Hgood as [_ Hcomplete].
    apply (Hcomplete u u [] w); [exact Hu | exact Hu | | constructor].
    split; [exact Hw | reflexivity].
  - pose proof Hw as Hw0.
    apply (walk_cons_inv edges) in Hw. destruct Hw as (e & r & Ee & Er & ->).
    destruct (edge_weight_range n edges Hrange u v e Ee) as [_ Hv].
    destruct l as [|v' l].
    + left. simpl in Er. injection Er as <-. simpl last.
      replace (e + 0) with e by lia. apply edge_accounted; assumption.
    + rewrite inner_cons in Hin by discriminate.
      apply Forall_cons_iff in Hin. destruct Hin as [Hvk Hin].
      rewrite last_cons_default.
      pose proof (walk_last_range (v' :: l) v r Hv Er) as Hj.
      set (j := last (v' :: l) v) in *.
      specialize (IH v r Hv Er Hin). fold j in IH.
      destruct (Z.eq_dec v k) as [->|Hne].
      * right.
        destruct (edge_accounted u k e Hu Ee) as [Huk Hle].
        destruct IH as [[Hf Hl]|(_ & Hf & Hl)]; repeat split; auto; lia.
      * assert (Hlt : v < k) by lia.
        destruct IH as [[Hf Hl]|(Hf1 & Hf2 & Hl)].
        -- left. destruct (via_prepend u v j e Hu Hj Ee Hlt Hf). split; [auto | lia].
        -- right. destruct (via_prepend u v k e Hu Hk Ee Hlt Hf1).
           repeat split; auto; lia.
Qed.

Lemma good_round : good edges n (k + 1) st'.
Proof.
  pose proof Hgood as [Hsound Hcomplete]. split.
  - intros i j Hi Hj Hfin. rewrite (Hround i j Hi Hj) in *.
    unfold relax_val in *.
    destruct (relax_fires (D st i k) (D st k j) (D st i j)) eqn:F.
    + apply relax_fires_true in F. destruct F as (F1 & F2 & _).
      pose proof (Hsmall i k Hi Hk F1). pose proof (Hsmall k j Hk Hj F2).
      unfold int_add. rewrite wrap_small by (unfold int_range, INT_MIN, INT_MAX; lia).
      destruct (Hsound i k Hi Hk F1) as (l1 & [Hw1 Hlast1] & Hin1).
      destruct (Hsound k j Hk Hj F2) as (l2 & [Hw2 Hlast2] & Hin2).
      exists (l1 ++ l2). split.
      * split.
        -- apply walk_app; [exact Hw1 | rewrite Hlast1; exact Hw2].
        -- rewrite last_app_walk, Hlast1. exact Hlast2.
      * assert (Hin1' : Forall (fun v => v < k + 1) l1).
        { destruct l1 as [|a l1]; [constructor|].
          apply (Forall_inner_last _ _ i); [discriminate | | rewrite Hlast1; lia].
          eapply Forall_impl; [|exact Hin1]. simpl. intros; lia. }
        destruct l2 as [|b l2].
        -- rewrite app_nil_r. eapply Forall_impl; [|exact Hin1]. simpl. intros; lia.
        -- unfold inner. rewrite removelast_app by discriminate.
           apply Forall_app. split; [exact Hin1'|].
           eapply Forall_impl; [|exact Hin2]. simpl. intros; lia.
    + destruct (Hsound i j Hi Hj Hfin) as (l & Hl & Hin).
      exists l. split; [exact Hl|].
      eapply Forall_impl; [|exact Hin]. simpl. intros; lia.
  - intros i j l w Hi Hj [Hw Hlast] Hin. rewrite (Hround i j Hi Hj).
    pose proof (relax_val_le (D st i k) (D st k j) (D st i j)) as Hle.
    destruct (via_k l i w Hi Hw Hin) as [[Hf Hl]|(Hf1 & Hf2 & Hl)];
      rewrite Hlast in *.
    + pose proof (Hint i j Hi Hj) as [_ Hmax]. lia.
    + pose proof (Hsmall i k Hi Hk Hf1). pose proof (Hsmall k j Hk Hj Hf2).
      rewrite relax_val_exact in *
        by (try assumption; unfold int_range, INT_MIN, INT_MAX; lia).
      unfold INT_MAX in *. lia.
Qed.

End Round.

Lemma relaxAll_good (st0 : state) :
  initMatrices n edges = Ok st0 ->
  exists st, relaxAll n st0 = Ok st /\ round_inv edges n n st.
Proof.
  intros E0. destruct (good_init st0 E0) as (Hwf0 & Hint0 & Hgood0).
  unfold relaxAll. apply (for_range_inv (round_inv edges n)); [exact Hn | | ].
  - split; [exact Hwf0|]. split; [exact Hint0|]. right. exact Hgood0.
  - intros k s Hk (Hwf & Hint & Hcase).
    destruct (relaxVia_spec n k s Hwf Hint Hk)
      as (s' & E & Hwf' & Hint' & Hmono & Hform).
    exists s'. split; [exact E|]. split; [exact Hwf'|]. split; [exact Hint'|].
    assert (Hneg : neg_diag n s -> neg_diag n s').
    { intros (i & Hi & Hd). exists i. split; [exact Hi|].
      specialize (Hmono i i Hi Hi). lia. }
    destruct Hcase as [Hnd|Hgood]; [left; auto|].
    destruct (neg_diag_dec n s) as [Hnd|Hdiag]; [left; auto|].
    right.
    assert (Hkk : D s k k = 0).
    { destruct Hgood as [_ Hcomplete].
      destruct (Hcomplete k k [] 0 Hk Hk) as [_ Hle];
        [split; reflexivity | constructor |].
      specialize (Hdiag k Hk). lia. }
    apply (good_round k s s' Hk Hgood Hint Hkk).
    + apply (good_bound k s Hgood Hdiag).
    + apply Hform. exact Hkk.
Qed.

End Correctness.

(** * The properties of [floydWarshall] *)

(** C1, as the claim states it, fails: an edge of weight [INT_MAX] is
    indistinguishable from a missing edge.  With 3 vertices and the edges
    [(0,1,INT_MAX)], [(1,2,-1)] the flag is false and vertex 2 is reached
    from vertex 0 by a walk of weight 2147483646, yet [dist[0][2]] is
    [INT_MAX], which is neither the shortest-path weight nor the mark of an
    unreachable vertex. *)
Lemma sentinel_weight_hides_path :
  exists dist next,
    floydWarshall 3 edges_sentinel = Ok (dist, next, false) /\
    rd dist 0 2 = INT_MAX /\
    is_walk edges_sentinel 0 2 [1; 2] 2147483646 /\
    ~ shortest edges_sentinel 0 2 (rd dist 0 2) /\
    ~ unreachable edges_sentinel 0 2.
Proof.
  eexists. eexists. split; [vm_compute; reflexivity|].
  assert (Hwalk : is_walk edges_sentinel 0 2 [1; 2] 2147483646)
    by (split; reflexivity).
  split; [reflexivity|]. split; [exact Hwalk|]. split.
  - intros [_ Hmin]. specialize (Hmin _ _ Hwalk). vm_compute in Hmin. auto.
  - intros Hun. exact (Hun _ _ Hwalk).
Qed.

(** C1, amended. Let [numVertices >= 0], every endpoint be a vertex, every
    weight be at most [W] in absolute value with [numVertices * W < 2^30]
    (so that no sum of two distances leaves the [int] range and no distance
    equals [INT_MAX]), and no edge from a vertex to itself have a positive
    weight.  If the returned flag is false, then for all vertices [i], [j]
    either [dist[i][j]] is finite and is the shortest-path weight from [i]
    to [j] in the graph of the edge list (the latest of duplicate edges
    counting), or [dist[i][j]] is [INT_MAX] and no walk leads from [i] to
    [j]. *)
Theorem floydWarshall_shortest_paths
        (numVertices W : Z) (edges : list edge) (dist next : matrix) (i j : Z) :
  0 <= numVertices ->
  edges_in_range numVertices edges ->
  weights_bounded W edges ->
  numVertices * W < 1073741824 ->
  no_positive_self_loop edges ->
  floydWarshall numVertices edges = Ok (dist, next, false) ->
  in_range numVertices i -> in_range numVertices j ->
  (rd dist i j <> INT_MAX /\ shortest edges i j (rd dist i j)) \/
  (rd dist i j = INT_MAX /\ unreachable edges i j).
Proof.
  intros Hn Hrange HW HnW Hself E Hi Hj.
  pose proof (flag_spec _ _ _ _ _ E) as Hflag.
  apply floydWarshall_inv in E. destruct E as (st0 & E0 & E1 & _).
  destruct (relaxAll_good numVertices W edges Hn Hrange HW HnW Hself st0 E0)
    as (st & E1' & _ & _ & Hcase).
  rewrite E1 in E1'. injection E1' as <-.
  destruct Hcase as [(v & Hv & Hneg)|[Hsound Hcomplete]].
  { assert (false = true) by (apply Hflag; exists v; auto). discriminate. }
  assert (Hall : forall l w, is_walk edges i j l w ->
                             rd dist i j <> INT_MAX /\ rd dist i j <= w).
  { intros l w Hl. apply (Hcomplete i j l w Hi Hj Hl).
    destruct Hl as [Hw _]. apply (walk_inner_below numVertices edges Hrange l i w Hw). }
  destruct (Z.eq_dec (rd dist i j) INT_MAX) as [Hinf|Hfin].
  - right. split; [exact Hinf|]. intros l w Hl. apply Hall in Hl. tauto.
  - left. split; [exact Hfin|]. split.
    + destruct (Hsound i j Hi Hj Hfin) as (l & Hl & _). exists l. exact Hl.
    + intros l w Hl. apply Hall in Hl. tauto.
Qed.

(** The first test graph, whose weights are at most 10: the entry for the
    pair (0, 4). *)
Lemma floydWarshall_shortest_paths_witness :
  (rd expectedDist1 0 4 <> INT_MAX /\ shortest edges1 0 4 (rd expectedDist1 0 4)) \/
  (rd expectedDist1 0 4 = INT_MAX /\ unreachable edges1 0 4).
Proof.
  apply (floydWarshall_shortest_paths 5 10 edges1 expectedDist1 expectedNext1).
  - lia.
  - unfold edges_in_range, edges1, in_range. repeat constructor; simpl; lia.
  - unfold weights_bounded, edges1. repeat constructor; simpl; lia.
  - lia.
  - unfold no_positive_self_loop, edges1. repeat constructor; simpl; lia.
  - reflexivity.
  - unfold in_range. lia.
  - unfold in_range. lia.
Defined.

(** C2. The returned flag is true exactly when some diagonal entry of the
    returned distance matrix is negative. *)
Theorem negativeCycle_iff_negative_diagonal
        (numVertices : Z) (edges : list edge) (dist next : matrix) (negativeCycle : bool) :
  floydWarshall numVertices edges = Ok (dist, next, negativeCycle) ->
  (negativeCycle = true <-> exists i, in_range numVertices i /\ rd dist i i < 0).
Proof.
  apply flag_spec.
Qed.

(** The second test graph, with its negative cycle. *)
Lemma negativeCycle_iff_negative_diagonal_witness :
  true = true <->
  exists i, in_range 3 i /\ rd [[-6; -7; -9]; [-5; -6; -8]; [-9; -10; -12]] i i < 0.
Proof.
  apply (negativeCycle_iff_negative_diagonal 3 edges2 _
           [[1; 1; 1]; [2; 2; 2]; [0; 0; 0]]).
  reflexivity.
Defined.

(** C3, as the claim states it, fails: the function has no overflow check.
    With 3 vertices and the edges [(0,1,2^30)], [(1,2,2^30)] both
    [dist[0][1]] and [dist[1][2]] are finite and their sum, 2^31, is not an
    [int]; the relaxation step for [k = 1], [i = 0], [j = 2] does not skip
    the update but stores the wrapped sum, [INT_MIN], which is below the
    mark [INT_MAX] it replaces and below the shortest-path weight 2^31; the
    function returns it with the flag false. *)
Lemma overflowing_sum_is_stored :
  exists st st' dist next,
    initMatrices 3 edges_overflow = Ok st /\
    D st 0 1 <> INT_MAX /\ D st 1 2 <> INT_MAX /\
    ~ int_range (D st 0 1 + D st 1 2) /\
    D st 0 2 = INT_MAX /\
    relax 1 0 2 st = Ok st' /\
    D st' 0 2 = INT_MIN /\
    floydWarshall 3 edges_overflow = Ok (dist, next, false) /\
    rd dist 0 2 = INT_MIN /\
    shortest edges_overflow 0 2 2147483648.
Proof.
  eexists. eexists. eexists. eexists.
  split; [vm_compute; reflexivity|].
  split; [vm_compute; discriminate|].
  split; [vm_compute; discriminate|].
  split; [vm_compute; intros [_ H]; apply H; reflexivity|].
  split; [reflexivity|].
  split; [vm_compute; reflexivity|].
  split; [reflexivity|].
  split; [vm_compute; reflexivity|].
  split; [reflexivity|].
  assert (Hedge : forall u v e, edge_weight edges_overflow u v = Some e ->
                    (u = 0 /\ v = 1 \/ u = 1 /\ v = 2) /\ e = 1073741824).
  { intros u v e. unfold edges_overflow. cbn [edge_weight].
    destruct (Z.eqb_spec 1 u), (Z.eqb_spec 2 v), (Z.eqb_spec 0 u), (Z.eqb_spec 1 v);
      cbn [andb]; intros He; try discriminate; injection He as <-;
      split; auto; lia. }
  split.
  - exists [1; 2]. split; reflexivity.
  - intros l w [Hw Hlast].
    destruct l as [|v1 l]; [simpl in Hlast; discriminate|].
    apply walk_cons_inv in Hw. destruct Hw as (e1 & r1 & E1 & Hw & ->).
    apply Hedge in E1. destruct E1 as [[[_ ->]|[? _]] ->]; [|lia].
    destruct l as [|v2 l]; [simpl in Hlast; discriminate|].
    apply walk_cons_inv in Hw. destruct Hw as (e2 & r2 & E2 & Hw & ->).
    apply Hedge in E2. destruct E2 as [[[? _]|[_ ->]] ->]; [lia|].
    destruct l as [|v3 l].
    + simpl in Hw. injection Hw as <-. lia.
    + apply walk_cons_inv in Hw. destruct Hw as (e3 & r3 & E3 & _).
      apply Hedge in E3. lia.
Qed.

(** When one of the two entries is [INT_MAX] the step changes nothing. *)
Lemma relax_skips_unreachable (n k i j : Z) (st : state) :
  wf n st -> in_range n k -> in_range n i -> in_range n j ->
  D st i k = INT_MAX \/ D st k j = INT_MAX ->
  relax k i j st = Ok st.
Proof.
  intros [Hd Hnx] Hk Hi Hj Hinf. destruct st as [dist next].
  unfold D in Hinf. simpl in *. unfold relax.
  rewrite (mget_ok n dist i k) by assumption. simpl bind.
  destruct (Z.eqb_spec (rd dist i k) INT_MAX) as [_|Hne]; [reflexivity|].
  rewrite (mget_ok n dist k j) by assumption. simpl bind.
  destruct (Z.eqb_spec (rd dist k j) INT_MAX) as [_|Hne']; [reflexivity | tauto].
Qed.

(** C3, amended. The only guard of the relaxation step is the test that
    both entries differ from [INT_MAX]; there is no overflow check.  When
    both [dist[i][k]] and [dist[k][j]] are finite and their sum is an
    [int], the sum is computed exactly: [dist[i][j]] becomes the smaller of
    its old value and the sum, and no other entry changes.  Nothing is said
    of a sum outside the [int] range. *)
Theorem relax_exact_when_sum_fits (numVertices k i j : Z) (st : state) :
  wf numVertices st ->
  in_range numVertices k -> in_range numVertices i -> in_range numVertices j ->
  D st i k <> INT_MAX -> D st k j <> INT_MAX ->
  int_range (D st i k + D st k j) ->
  exists st', relax k i j st = Ok st' /\
    D st' i j = Z.min (D st i j) (D st i k + D st k j) /\
    forall a b, in_range numVertices a -> in_range numVertices b ->
                a <> i \/ b <> j -> D st' a b = D st a b.
Proof.
  intros Hwf Hk Hi Hj Hik Hkj Hsum.
  destruct (relax_ok numVertices k i j st Hwf Hk Hi Hj) as (st' & E & _ & RD & _).
  exists st'. split; [exact E|]. unfold in_range in *. split.
  - rewrite RD, !Z.eqb_refl by lia. simpl. apply relax_val_exact; assumption.
  - intros a b Ha Hb Hne. rewrite RD by lia.
    destruct (Z.eqb_spec a i), (Z.eqb_spec b j); simpl; try reflexivity. lia.
Qed.

(** The step for [k = 1], [i = 0], [j = 2] on a path 0 -> 1 -> 2 with
    weights 4 and 3. *)
Lemma relax_exact_when_sum_fits_witness :
  exists st',
    relax 1 0 2 path_state = Ok st' /\
    D st' 0 2 = Z.min (D path_state 0 2) (D path_state 0 1 + D path_state 1 2) /\
    forall a b, in_range 3 a -> in_range 3 b -> a <> 0 \/ b <> 2 ->
                D st' a b = D path_state a b.
Proof.
  apply (relax_exact_when_sum_fits 3 1 0 2 path_state).
  - split; (split; [reflexivity | repeat constructor]).
  - unfold in_range. lia.
  - unfold in_range. lia.
  - unfold in_range. lia.
  - vm_compute. discriminate.
  - vm_compute. discriminate.
  - vm_compute. split; discriminate.
Defined.

(** C4, the failing input. One vertex with an edge of weight 5 to itself:
    the edge loop overwrites the 0 of the diagonal, no relaxation lowers
    it, and the function returns [dist[0][0] = 5]. *)
Theorem positive_self_loop_on_diagonal :
  floydWarshall 1 [(0, 0, 5)] = Ok ([[5]], [[0]], false).
Proof.
  reflexivity.
Qed.

(** Outside the failing input of C4 the diagonal behaves: when no edge
    from a vertex to itself has a positive weight, every diagonal entry of
    the result is at most 0. *)
Lemma diagonal_nonpositive
      (numVertices : Z) (edges : list edge) (dist next : matrix)
      (negativeCycle : bool) (i : Z) :
  0 <= numVertices ->
  edges_in_range numVertices edges ->
  no_positive_self_loop edges ->
  floydWarshall numVertices edges = Ok (dist, next, negativeCycle) ->
  in_range numVertices i ->
  rd dist i i <= 0.
Proof.
  intros Hn Hrange Hself E Hi.
  destruct (floydWarshall_ok numVertices edges
              (fun st => forall v, in_range numVertices v -> D st v v <= 0) Hn Hrange)
    as (dist' & next' & flag' & E' & _ & Hinv).
  - intros st0 E0 _ v Hv.
    destruct (initMatrices_ok numVertices edges Hn Hrange) as (st & Est & _ & R).
    rewrite E0 in Est. injection Est as <-.
    destruct (R v v Hv Hv) as [-> _]. rewrite Z.eqb_refl.
    destruct (edge_weight edges v v) as [e|] eqn:Ee; [|lia].
    apply edge_weight_In in Ee.
    unfold no_positive_self_loop in Hself. rewrite Forall_forall in Hself.
    apply (Hself _ Ee eq_refl).
  - intros k a b s s' Hk Ha Hb Hwf Hs Es v Hv.
    destruct (relax_spec numVertices k a b s s' Hwf Hk Ha Hb Es) as [RD _].
    unfold in_range in Hv. rewrite RD by lia.
    destruct ((v =? a) && (v =? b)) eqn:Eab; [|apply Hs; exact Hv].
    apply andb_true_iff in Eab. destruct Eab as [Eva Evb].
    apply Z.eqb_eq in Eva, Evb. subst a b.
    pose proof (relax_val_le (D s v k) (D s k v) (D s v v)).
    specialize (Hs v Hv). lia.
  - rewrite E in E'. injection E' as <- <- <-. apply (Hinv i Hi).
Qed.

(** C5, as the claim states it, fails.  On the second test graph of the
    repository, the negative cycle 0 -> 1 -> 2 -> 0, the entry [next[0][0]]
    is 1 although its two indices are equal. *)
Lemma next_set_on_diagonal :
  exists dist next negativeCycle,
    floydWarshall 3 edges2 = Ok (dist, next, negativeCycle) /\
    rd next 0 0 = 1 /\
    ~ (rd next 0 0 <> -1 <-> rd dist 0 0 <> INT_MAX /\ 0 <> 0).
Proof.
  eexists. eexists. eexists. split; [vm_compute; reflexivity|].
  split; [reflexivity|].
  intros [H _]. destruct H as [_ H]; [vm_compute; discriminate|].
  apply H. reflexivity.
Qed.

(** An edge from a vertex to itself sets the next vertex on the diagonal,
    with the flag false. *)
Lemma self_loop_sets_next :
  floydWarshall 1 [(0, 0, 0)] = Ok ([[0]], [[0]], false).
Proof.
  reflexivity.
Qed.

(** An edge of weight [INT_MAX] sets the next vertex of an entry that
    reads as "no path". *)
Lemma sentinel_weight_sets_next :
  floydWarshall 2 [(0, 1, 2147483647)] =
  Ok ([[0; INT_MAX]; [INT_MAX; 0]], [[-1; 1]; [-1; -1]], false).
Proof.
  reflexivity.
Qed.

(** C5, amended. On valid input, for all vertices [i], [j]: if
    [dist[i][j]] is finite and [i <> j] then [next[i][j]] is set (is not
    -1).  Conversely, when no weight is [INT_MAX], no edge leads from a
    vertex to itself and the returned flag is false, a set [next[i][j]]
    implies that [dist[i][j]] is finite and [i <> j]. *)
Theorem next_set_iff_finite
        (numVertices : Z) (edges : list edge) (dist next : matrix)
        (negativeCycle : bool) (i j : Z) :
  0 <= numVertices ->
  edges_in_range numVertices edges ->
  weights_int edges ->
  floydWarshall numVertices edges = Ok (dist, next, negativeCycle) ->
  in_range numVertices i -> in_range numVertices j ->
  (rd dist i j <> INT_MAX /\ i <> j -> rd next i j <> -1) /\
  (weights_finite edges -> no_self_loop edges -> negativeCycle = false ->
   rd next i j <> -1 -> rd dist i j <> INT_MAX /\ i <> j).
Proof.
  intros Hn Hrange Hint E Hi Hj.
  pose proof (flag_spec _ _ _ _ _ E) as Hflag.
  destruct (floydWarshall_ok numVertices edges (link_inv numVertices edges) Hn Hrange)
    as (dist' & next' & flag' & E' & _ & Hinv).
  { intros st0 E0 _. apply link_inv_init; assumption. }
  { intros k a b s s'. apply link_inv_step; assumption. }
  rewrite E in E'. injection E' as <- <- <-.
  destruct Hinv as (_ & Hnf & Hfn & Hdn). unfold D, N in *. simpl in *.
  split.
  - intros [Hfin Hne].
    destruct (Hnf i j Hi Hj) as [H|[H|[H _]]]; [exact H | contradiction | contradiction].
  - intros Hwf Hnl Hfalse Hset.
    destruct (Hfn Hwf i j Hi Hj) as [H|H]; [contradiction|].
    split; [exact H|]. intros <-.
    destruct (Hdn Hnl i Hi) as [_ [Hm|Hneg]]; [contradiction|].
    assert (negativeCycle = true) by (apply Hflag; exists i; auto).
    congruence.
Qed.

(** The first test graph: the entry for the pair (0, 1). *)
Lemma next_set_iff_finite_witness :
  (rd expectedDist1 0 1 <> INT_MAX /\ 0 <> 1 -> rd expectedNext1 0 1 <> -1) /\
  (weights_finite edges1 -> no_self_loop edges1 -> false = false ->
   rd expectedNext1 0 1 <> -1 -> rd expectedDist1 0 1 <> INT_MAX /\ 0 <> 1).
Proof.
  apply (next_set_iff_finite 5 edges1 expectedDist1 expectedNext1 false).
  - lia.
  - unfold edges_in_range, edges1, in_range. repeat constructor; simpl; lia.
  - unfold weights_int, edges1, int_range, INT_MIN, INT_MAX.
    repeat constructor; simpl; lia.
  - reflexivity.
  - unfold in_range. lia.
  - unfold in_range. lia.
Defined.

(** C6. A negative [numVertices] makes the first statement of the
    function, the allocation of the matrices, fail with
    [std::length_error]; whatever the edge list, that is the outcome of the
    function, and no matrix exists that could have been written to. *)
Theorem negative_numVertices_rejected (numVertices : Z) :
  numVertices < 0 ->
  allocMatrices numVertices = Err length_error /\
  forall edges, floydWarshall numVertices edges = Err length_error.
Proof.
  intros Hneg.
  assert (E : allocMatrices numVertices = Err length_error).
  { unfold allocMatrices, vector_new.
    destruct (Z.ltb_spec numVertices 0); [reflexivity | lia]. }
  split; [exact E|].
  intros edges. unfold floydWarshall, initMatrices. rewrite E. reflexivity.
Qed.

(** The count -1. *)
Lemma negative_numVertices_rejected_witness :
  allocMatrices (-1) = Err length_error /\
  forall edges, floydWarshall (-1) edges = Err length_error.
Proof.
  apply negative_numVertices_rejected. lia.
Defined.

(** C7. Of the edges of the input that share their two endpoints, the one
    latest in the input is the one found in both matrices when the edge loop
    has run: [dist[u][v]] is its weight, whatever the earlier weights were,
    and [next[u][v]] is [v]. *)
Theorem last_duplicate_edge_wins
        (numVertices : Z) (before after : list edge) (u v weight : Z) :
  edges_in_range numVertices (before ++ (u, v, weight) :: after) ->
  Forall (fun e : edge => fst (fst e) <> u \/ snd (fst e) <> v) after ->
  exists st, initMatrices numVertices (before ++ (u, v, weight) :: after) = Ok st /\
             D st u v = weight /\ N st u v = v.
Proof.
  intros He Hafter.
  assert (Huv : in_range numVertices u /\ in_range numVertices v).
  { unfold edges_in_range in He. rewrite Forall_forall in He.
    apply (He (u, v, weight)). apply in_elt. }
  destruct Huv as [Hu Hv].
  destruct (initMatrices_ok numVertices _ ltac:(unfold in_range in Hu; lia) He)
    as (st & E & _ & R).
  exists st. split; [exact E|].
  destruct (R u v Hu Hv) as [RD RN].
  rewrite RD, RN, (edge_weight_last before after u v weight Hafter). auto.
Qed.

(** Two edges from 0 to 1, of weight 3 and then 7: the matrices hold 7,
    not the smaller weight. *)
Lemma last_duplicate_edge_wins_witness :
  exists st, initMatrices 2 ([(0, 1, 3)] ++ (0, 1, 7) :: []) = Ok st /\
             D st 0 1 = 7 /\ N st 0 1 = 1.
Proof.
  apply (last_duplicate_edge_wins 2 [(0, 1, 3)] [] 0 1 7).
  - unfold edges_in_range, in_range. repeat constructor; simpl; lia.
  - constructor.
Defined.

(** C8. With no vertex and no edge the function returns two empty
    matrices and the flag false. *)
Theorem no_vertices : floydWarshall 0 [] = Ok ([], [], false).
Proof.
  reflexivity.
Qed.

(** C9. On the first test graph, 5 vertices and the nine edges of
    [edges1], row 0 of the distance matrix is [0, 8, 9, 5, 7], the flag is
    false and [next[0][1]] is 3. *)
Theorem scenario_A :
  exists dist next,
    floydWarshall 5 edges1 = Ok (dist, next, false) /\
    nth 0 dist [] = [0; 8; 9; 5; 7] /\
    rd next 0 1 = 3.
Proof.
  eexists. eexists. split; [vm_compute; reflexivity|].
  split; reflexivity.
Qed.

(** The assertions of [testFloydWarshall] hold of the embedding. *)
Lemma testFloydWarshall_passes :
  floydWarshall 5 edges1 = Ok (expectedDist1, expectedNext1, false) /\
  (exists dist next, floydWarshall 3 edges2 = Ok (dist, next, true)) /\
  floydWarshall 4 edges3 = Ok (expectedDist3, expectedNext3, false).
Proof.
  split; [vm_compute; reflexivity|].
  split; [|vm_compute; reflexivity].
  eexists. eexists. vm_compute. reflexivity.
Qed.

(** C10. For every [numVertices >= 0] and every edge list whose endpoints
    are all vertices, no access of the function leaves the matrices: the
    function returns a result, two square matrices of side [numVertices]
    and the flag, and neither error arises. *)
Theorem floydWarshall_in_bounds (numVertices : Z) (edges : list edge) :
  0 <= numVertices -> edges_in_range numVertices edges ->
  exists dist next negativeCycle,
    floydWarshall numVertices edges = Ok (dist, next, negativeCycle) /\
    square numVertices dist /\ square numVertices next.
Proof.
  intros Hn He.
  destruct (floydWarshall_ok numVertices edges (fun _ => True) Hn He)
    as (dist & next & flag & E & [Hd Hnx] & _); auto.
  exists dist, next, flag. auto.
Qed.

(** The first test graph. *)
Lemma floydWarshall_in_bounds_witness :
  exists dist next negativeCycle,
    floydWarshall 5 edges1 = Ok (dist, next, negativeCycle) /\
    square 5 dist /\ square 5 next.
Proof.
  apply floydWarshall_in_bounds.
  - lia.
  - unfold edges_in_range, edges1, in_range. repeat constructor; simpl; lia.
Defined.

(** * Further properties of [floydWarshall] *)

(** ** Inputs the function cannot index *)






(** ** The matrices before the triple loop *)

(** X2. On valid input the allocation, the diagonal loop and the edge loop
    succeed and leave two square matrices: [dist[i][j]] is the weight of
    the latest edge from [i] to [j] if there is one, else 0 on the diagonal
    and [INT_MAX] off it; [next[i][j]] is [j] if there is such an edge,
    else -1. *)
Theorem matrices_before_relaxation (numVertices : Z) (edges : list edge) :
  0 <= numVertices -> edges_in_range numVertices edges ->
  exists st, initMatrices numVertices edges = Ok st /\ wf numVertices st /\
    forall i j, in_range numVertices i -> in_range numVertices j ->
      D st i j = init_entry edges i j /\
      N st i j = match edge_weight edges i j with
                 | Some _ => j
                 | None => -1
                 end.
Proof.
  intros Hn Hrange. exact (initMatrices_ok numVertices edges Hn Hrange).
Qed.

(** The third test graph. *)
Lemma matrices_before_relaxation_witness :
  exists st, initMatrices 4 edges3 = Ok st /\ wf 4 st /\
    forall i j, in_range 4 i -> in_range 4 j ->
      D st i j = init_entry edges3 i j /\
      N st i j = match edge_weight edges3 i j with
                 | Some _ => j
                 | None => -1
                 end.
Proof.
  apply matrices_before_relaxation.
  - lia.
  - unfold edges_in_range, edges3, in_range. repeat constructor; simpl; lia.
Defined.

(** ** The empty edge list *)

(** X3. With no edge, whatever the number of vertices, nothing is relaxed:
    the distance matrix has 0 on the diagonal and [INT_MAX] elsewhere, no
    next vertex is set, and the flag is false. *)
Theorem no_edges (numVertices : Z) :
  0 <= numVertices ->
  exists dist next,
    floydWarshall numVertices [] = Ok (dist, next, false) /\
    forall i j, in_range numVertices i -> in_range numVertices j ->
      rd dist i j = (if i =? j then 0 else INT_MAX) /\ rd next i j = -1.
Proof.
  intros Hn.
  destruct (floydWarshall_ok numVertices []
              (fun st => forall i j, in_range numVertices i -> in_range numVertices j ->
                 D st i j = (if i =? j then 0 else INT_MAX) /\ N st i j = -1) Hn)
    as (dist & next & flag & E & _ & Hinv).
  - constructor.
  - intros st0 E0 _ i j Hi Hj.
    destruct (initMatrices_ok numVertices [] Hn) as (st & Est & _ & R); [constructor|].
    rewrite E0 in Est. injection Est as <-. apply (R i j Hi Hj).
  - intros k a b s s' Hk Ha Hb Hwf Hs Es i j Hi Hj.
    destruct (relax_spec numVertices k a b s s' Hwf Hk Ha Hb Es) as [RD RN].
    assert (F : relax_fires (D s a k) (D s k b) (D s a b) = false).
    { destruct (relax_fires (D s a k) (D s k b) (D s a b)) eqn:F; [|reflexivity].
      apply relax_fires_true in F. destruct F as (F1 & F2 & F3).
      destruct (Hs a k Ha Hk) as [Eak _]. destruct (Hs k b Hk Hb) as [Ekb _].
      destruct (Hs a b Ha Hb) as [Eab _].
      rewrite Eak, Ekb, Eab in *.
      destruct (Z.eqb_spec a k); [|congruence].
      destruct (Z.eqb_spec k b); [|congruence].
      destruct (Z.eqb_spec a b); [|congruence].
      vm_compute in F3. discriminate. }
    unfold in_range in Hi, Hj. rewrite RD, RN by lia.
    unfold relax_val. rewrite F, andb_false_r.
    destruct ((i =? a) && (j =? b)) eqn:Eij; [|apply Hs; unfold in_range; lia].
    apply andb_true_iff in Eij. destruct Eij as [Eia Ejb].
    apply Z.eqb_eq in Eia, Ejb. subst a b. apply Hs; assumption.
  - assert (Hflag : flag = false).
    { destruct flag; [|reflexivity].
      destruct (proj1 (flag_spec _ _ _ _ _ E) eq_refl) as (v & Hv & Hneg).
      destruct (Hinv v v Hv Hv) as [Ev _]. unfold D in Ev. simpl in Ev.
      rewrite Ev, Z.eqb_refl in Hneg. lia. }
    subst flag. exists dist, next. split; [exact E|]. exact Hinv.
Qed.

Lemma no_edges_witness :
  exists dist next,
    floydWarshall 3 [] = Ok (dist, next, false) /\
    forall i j, in_range 3 i -> in_range 3 j ->
      rd dist i j = (if i =? j then 0 else INT_MAX) /\ rd next i j = -1.
Proof.
  apply no_edges. lia.
Defined.

(** ** What holds of the result whatever the weights *)

Lemma is_walk_app (edges : list edge) (a b c : Z) (l1 l2 : list Z) (w1 w2 : Z) :
  is_walk edges a b l1 w1 -> is_walk edges b c l2 w2 ->
  is_walk edges a c (l1 ++ l2) (w1 + w2).
Proof.
  intros [Hw1 Hl1] [Hw2 Hl2]. split.
  - apply walk_app; [exact Hw1 | rewrite Hl1; exact Hw2].
  - rewrite last_app_walk, Hl1. exact Hl2.
Qed.

Lemma is_walk_edge (edges : list edge) (u v e : Z) :
  edge_weight edges u v = Some e -> is_walk edges u v [v] e.
Proof.
  intros E. split; [|reflexivity]. simpl. rewrite E. f_equal. lia.
Qed.

(** The returned matrices on valid input, with the matrices the triple
    loop started from. *)
Lemma floydWarshall_from_init (n : Z) (edges : list edge) (dist next : matrix)
      (flag : bool) (Inv : state -> Prop) :
  0 <= n -> edges_in_range n edges ->
  floydWarshall n edges = Ok (dist, next, flag) ->
  (forall st0, wf n st0 ->
     (forall i j, in_range n i -> in_range n j ->
        D st0 i j = init_entry edges i j /\
        N st0 i j = match edge_weight edges i j with Some _ => j | None => -1 end) ->
     Inv st0) ->
  (forall k i j s s', in_range n k -> in_range n i -> in_range n j -> wf n s ->
                      Inv s -> relax k i j s = Ok s' -> Inv s') ->
  Inv (dist, next).
Proof.
  intros Hn Hrange E Hinit Hstep.
  destruct (floydWarshall_ok n edges Inv Hn Hrange) as (d & nx & f & E' & _ & Hinv).
  - intros st0 E0 Hwf0. apply Hinit; [exact Hwf0|].
    destruct (initMatrices_ok n edges Hn Hrange) as (st & Est & _ & R).
    rewrite E0 in Est. injection Est as <-. exact R.
  - exact Hstep.
  - rewrite E in E'. injection E' as <- <- <-. exact Hinv.
Qed.

(** The triple loop never raises an entry, also when a sum wraps around. *)
Lemma dist_le_init (n : Z) (edges : list edge) (dist next : matrix) (flag : bool) :
  0 <= n -> edges_in_range n edges ->
  floydWarshall n edges = Ok (dist, next, flag) ->
  forall i j, in_range n i -> in_range n j -> rd dist i j <= init_entry edges i j.
Proof.
  intros Hn Hrange E.
  apply (floydWarshall_from_init n edges dist next flag
           (fun st => forall i j, in_range n i -> in_range n j ->
                                  D st i j <= init_entry edges i j) Hn Hrange E).
  - intros st0 _ R i j Hi Hj. destruct (R i j Hi Hj) as [-> _]. lia.
  - intros k a b s s' Hk Ha Hb Hwf Hs Es i j Hi Hj.
    destruct (relax_spec n k a b s s' Hwf Hk Ha Hb Es) as [RD _].
    unfold in_range in Hi, Hj. rewrite RD by lia.
    destruct ((i =? a) && (j =? b)) eqn:Eij; [|apply Hs; unfold in_range; lia].
    apply andb_true_iff in Eij. destruct Eij as [Eia Ejb].
    apply Z.eqb_eq in Eia, Ejb. subst a b.
    pose proof (relax_val_le (D s i k) (D s k j) (D s i j)).
    specialize (Hs i j Ha Hb). lia.
Qed.

(** X4. On valid input the returned distance between the ends of an edge is
    at most the weight of that edge (of the latest one, among duplicates),
    whatever the weights and also when a sum wraps around. *)
Theorem distance_at_most_edge_weight
        (numVertices : Z) (edges : list edge) (dist next : matrix)
        (negativeCycle : bool) (u v weight : Z) :
  0 <= numVertices -> edges_in_range numVertices edges ->
  floydWarshall numVertices edges = Ok (dist, next, negativeCycle) ->
  edge_weight edges u v = Some weight ->
  rd dist u v <= weight.
Proof.
  intros Hn Hrange E Ew.
  destruct (edge_weight_range numVertices edges Hrange u v weight Ew) as [Hu Hv].
  pose proof (dist_le_init numVertices edges dist next negativeCycle Hn Hrange E u v Hu Hv)
    as Hle.
  unfold init_entry in Hle. rewrite Ew in Hle. exact Hle.
Qed.

(** The first test graph: the edge from 0 to 1 has weight 10, the
    returned distance is 8. *)
Lemma distance_at_most_edge_weight_witness : rd expectedDist1 0 1 <= 10.
Proof.
  apply (distance_at_most_edge_weight 5 edges1 expectedDist1 expectedNext1 false 0 1 10).
  - lia.
  - unfold edges_in_range, edges1, in_range. repeat constructor; simpl; lia.
  - reflexivity.
  - reflexivity.
Defined.

(** X5. An edge of negative weight from a vertex to itself (the latest edge
    of that vertex to itself) makes the flag true, whatever the other
    weights. *)
Theorem negative_self_loop_flagged
        (numVertices : Z) (edges : list edge) (dist next : matrix)
        (negativeCycle : bool) (u weight : Z) :
  0 <= numVertices -> edges_in_range numVertices edges ->
  floydWarshall numVertices edges = Ok (dist, next, negativeCycle) ->
  edge_weight edges u u = Some weight -> weight < 0 ->
  negativeCycle = true.
Proof.
  intros Hn Hrange E Ew Hneg.
  destruct (edge_weight_range numVertices edges Hrange u u weight Ew) as [Hu _].
  pose proof (dist_le_init numVertices edges dist next negativeCycle Hn Hrange E u u Hu Hu)
    as Hle.
  unfold init_entry in Hle. rewrite Ew in Hle.
  apply (flag_spec _ _ _ _ _ E). exists u. split; [exact Hu | lia].
Qed.

(** Two vertices, an edge between them and an edge of weight -1 from
    vertex 1 to itself. *)
Lemma negative_self_loop_flagged_witness : true = true.
Proof.
  apply (negative_self_loop_flagged 2 [(0, 1, 4); (1, 1, -1)]
           [[0; 3]; [INT_MAX; -2]] [[-1; 1]; [-1; 1]] true 1 (-1)).
  - lia.
  - unfold edges_in_range, in_range. repeat constructor; simpl; lia.
  - reflexivity.
  - reflexivity.
  - lia.
Defined.

Lemma reach_inv_result (n : Z) (edges : list edge) (dist next : matrix) (flag : bool) :
  0 <= n -> edges_in_range n edges ->
  floydWarshall n edges = Ok (dist, next, flag) ->
  reach_inv edges n (dist, next).
Proof.
  intros Hn Hrange E.
  apply (floydWarshall_from_init n edges dist next flag (reach_inv edges n) Hn Hrange E).
  - intros st0 _ R i j Hi Hj. destruct (R i j Hi Hj) as [RD RN].
    rewrite RD, RN. unfold init_entry.
    destruct (edge_weight edges i j) as [e|] eqn:Ee.
    + split.
      * intros _. exists [j], e. apply is_walk_edge. exact Ee.
      * intros _. exists e. split; [exact Ee|].
        exists [], 0. split; reflexivity.
    + split; [|congruence].
      destruct (Z.eqb_spec i j) as [->|Hne]; [|congruence].
      intros _. exists [], 0. split; reflexivity.
  - intros k a b s s' Hk Ha Hb Hwf Hs Es i j Hi Hj.
    destruct (relax_spec n k a b s s' Hwf Hk Ha Hb Es) as [RD RN].
    unfold in_range in Hi, Hj. rewrite RD, RN by lia. unfold relax_val.
    destruct ((i =? a) && (j =? b)) eqn:Eij; [|apply Hs; unfold in_range; lia].
    apply andb_true_iff in Eij. destruct Eij as [Eia Ejb].
    apply Z.eqb_eq in Eia, Ejb. subst a b. simpl andb.
    destruct (relax_fires (D s i k) (D s k j) (D s i j)) eqn:F;
      [|apply Hs; assumption].
    apply relax_fires_true in F. destruct F as (F1 & F2 & _).
    destruct (Hs i k Ha Hk) as [Hik Hnik]. destruct (Hs k j Hk Hb) as [Hkj _].
    destruct (Hik F1) as (l1 & w1 & Hl1). destruct (Hkj F2) as (l2 & w2 & Hl2).
    split.
    + intros _. exists (l1 ++ l2), (w1 + w2). apply (is_walk_app edges i k j); assumption.
    + intros Hset. destruct (Hnik Hset) as (e & Ee & l & w & Hl).
      exists e. split; [exact Ee|].
      exists (l ++ l2), (w + w2). apply (is_walk_app edges _ k j); assumption.
Qed.

(** X6. On valid input, whatever the weights and also when a sum wraps
    around, a finite returned distance joins two vertices that a walk
    joins: the function reports no distance between vertices that are not
    connected. *)
Theorem finite_distance_is_reachable
        (numVertices : Z) (edges : list edge) (dist next : matrix)
        (negativeCycle : bool) (i j : Z) :
  0 <= numVertices -> edges_in_range numVertices edges ->
  floydWarshall numVertices edges = Ok (dist, next, negativeCycle) ->
  in_range numVertices i -> in_range numVertices j ->
  rd dist i j <> INT_MAX ->
  exists l w, is_walk edges i j l w.
Proof.
  intros Hn Hrange E Hi Hj Hfin.
  destruct (reach_inv_result numVertices edges dist next negativeCycle Hn Hrange E i j Hi Hj)
    as [Hreach _].
  exact (Hreach Hfin).
Qed.

(** The first test graph: vertex 4 from vertex 0. *)
Lemma finite_distance_is_reachable_witness : exists l w, is_walk edges1 0 4 l w.
Proof.
  apply (finite_distance_is_reachable 5 edges1 expectedDist1 expectedNext1 false 0 4).
  - lia.
  - unfold edges_in_range, edges1, in_range. repeat constructor; simpl; lia.
  - reflexivity.
  - unfold in_range. lia.
  - unfold in_range. lia.
  - vm_compute. discriminate.
Defined.

(** X7. On valid input, whatever the weights, a set [next[i][j]] is a vertex
    [m] such that the graph has the edge from [i] to [m] and a walk from
    [m] to [j]. *)
Theorem next_is_successor_towards_target
        (numVertices : Z) (edges : list edge) (dist next : matrix)
        (negativeCycle : bool) (i j : Z) :
  0 <= numVertices -> edges_in_range numVertices edges ->
  floydWarshall numVertices edges = Ok (dist, next, negativeCycle) ->
  in_range numVertices i -> in_range numVertices j ->
  rd next i j <> -1 ->
  in_range numVertices (rd next i j) /\
  (exists e, edge_weight edges i (rd next i j) = Some e) /\
  (exists l w, is_walk edges (rd next i j) j l w).
Proof.
  intros Hn Hrange E Hi Hj Hset.
  destruct (reach_inv_result numVertices edges dist next negativeCycle Hn Hrange E i j Hi Hj)
    as [_ Hhop].
  destruct (Hhop Hset) as (e & Ee & l & w & Hl).
  split; [|split].
  - apply (edge_weight_range numVertices edges Hrange i _ e Ee).
  - exists e. exact Ee.
  - exists l, w. exact Hl.
Qed.

(** The first test graph: [next[0][1]] is 3. *)
Lemma next_is_successor_towards_target_witness :
  in_range 5 (rd expectedNext1 0 1) /\
  (exists e, edge_weight edges1 0 (rd expectedNext1 0 1) = Some e) /\
  (exists l w, is_walk edges1 (rd expectedNext1 0 1) 1 l w).
Proof.
  apply (next_is_successor_towards_target 5 edges1 expectedDist1 expectedNext1 false 0 1).
  - lia.
  - unfold edges_in_range, edges1, in_range. repeat constructor; simpl; lia.
  - reflexivity.
  - unfold in_range. lia.
  - unfold in_range. lia.
  - vm_compute. discriminate.
Defined.

(** X8. When no edge from a vertex to itself has a positive weight, every
    diagonal entry of the result is at most 0, and it is 0 when the flag
    is false: without a reported negative cycle every vertex is at
    distance 0 from itself.  No bound on the weights is needed. *)
Theorem diagonal_zero_without_cycle
        (numVertices : Z) (edges : list edge) (dist next : matrix)
        (negativeCycle : bool) (i : Z) :
  0 <= numVertices -> edges_in_range numVertices edges ->
  no_positive_self_loop edges ->
  floydWarshall numVertices edges = Ok (dist, next, negativeCycle) ->
  in_range numVertices i ->
  rd dist i i <= 0 /\ (negativeCycle = false -> rd dist i i = 0).
Proof.
  intros Hn Hrange Hself E Hi.
  pose proof (diagonal_nonpositive numVertices edges dist next negativeCycle i
                Hn Hrange Hself E Hi) as Hle.
  split; [exact Hle|]. intros Hfalse.
  destruct (Z_lt_dec (rd dist i i) 0) as [Hneg|Hpos]; [|lia].
  assert (negativeCycle = true)
    by (apply (flag_spec _ _ _ _ _ E); exists i; auto).
  congruence.
Qed.

(** The third test graph, with its negative weights. *)
Lemma diagonal_zero_without_cycle_witness :
  rd expectedDist3 2 2 <= 0 /\ (false = false -> rd expectedDist3 2 2 = 0).
Proof.
  apply (diagonal_zero_without_cycle 4 edges3 expectedDist3 expectedNext3 false 2).
  - lia.
  - unfold edges_in_range, edges3, in_range. repeat constructor; simpl; lia.
  - unfold no_positive_self_loop, edges3. repeat constructor; simpl; lia.
  - reflexivity.
  - unfold in_range. lia.
Defined.

(** ** The next matrix through one round *)

Lemma relax_fires_zero_r (x : Z) : int_range x -> relax_fires x 0 x = false.
Proof.
  intros Hx. destruct (relax_fires x 0 x) eqn:F; [|reflexivity].
  apply relax_fires_true in F. unfold int_add in F.
  rewrite Z.add_0_r, wrap_small in F by exact Hx. lia.
Qed.

Lemma relax_fires_zero_l (y : Z) : int_range y -> relax_fires 0 y y = false.
Proof.
  intros Hy. destruct (relax_fires 0 y y) eqn:F; [|reflexivity].
  apply relax_fires_true in F. unfold int_add in F.
  rewrite Z.add_0_l, wrap_small in F by exact Hy. lia.
Qed.

(** When [dist[k][k]] is 0 at the start of the round of [k], the round
    leaves in [next[a][b]] the entry [next[a][k]] of its start where the
    relaxation computed from the matrix of its start fires, and the old
    entry elsewhere: column [k] of the next matrix does not change under
    the round. *)
Lemma relaxVia_next_spec (n k : Z) (st : state) :
  wf n st -> int_entries n st -> in_range n k -> D st k k = 0 ->
  exists st', relaxVia n k st = Ok st' /\
    forall a b, in_range n a -> in_range n b ->
      N st' a b = if relax_fires (D st a k) (D st k b) (D st a b)
                  then N st a k else N st a b.
Proof.
  intros Hwf Hint Hk H0.
  set (rv := fun a b => relax_val (D st a k) (D st k b) (D st a b)).
  set (nv := fun a b => if relax_fires (D st a k) (D st k b) (D st a b)
                        then N st a k else N st a b).
  assert (Hrow : forall a, in_range n a -> rv a k = D st a k /\ nv a k = N st a k).
  { intros a Ha. unfold rv, nv. rewrite H0.
    rewrite relax_val_zero_r, relax_fires_zero_r by (apply Hint; assumption). auto. }
  assert (Hcol : forall b, in_range n b -> rv k b = D st k b).
  { intros b Hb. unfold rv. rewrite H0. apply relax_val_zero_l, Hint; assumption. }
  unfold relaxVia.
  pose (Qi := fun (i : Z) (t : state) =>
          wf n t /\
          forall a b, in_range n a -> in_range n b ->
            D t a b = (if a <? i then rv a b else D st a b) /\
            N t a b = (if a <? i then nv a b else N st a b)).
  destruct (for_range_inv Qi
              (fun i st => for_range 0 n (fun j st => relax k i j st) st) 0 n st)
    as (st' & E & Hwf' & Hform).
  - unfold in_range in Hk. lia.
  - unfold Qi. split; [exact Hwf|].
    intros a b Ha Hb. unfold in_range in Ha.
    destruct (Z.ltb_spec a 0); [lia | auto].
  - intros i s Hi (Hws & Hforms).
    pose (Qj := fun (j : Z) (t : state) =>
            wf n t /\
            forall a b, in_range n a -> in_range n b ->
              D t a b = (if (a <? i) || ((a =? i) && (b <? j))
                         then rv a b else D st a b) /\
              N t a b = (if (a <? i) || ((a =? i) && (b <? j))
                         then nv a b else N st a b)).
    destruct (for_range_inv Qj (fun j st => relax k i j st) 0 n s)
      as (s' & Es & Hws' & Hforms').
    + lia.
    + unfold Qj. split; [exact Hws|].
      intros a b Ha Hb. destruct (Hforms a b Ha Hb) as [-> ->].
      unfold in_range in Hb. destruct (Z.ltb_spec b 0); [lia|].
      rewrite andb_false_r, orb_false_r. auto.
    + intros j t Hj (Hwt & Hformt).
      destruct (relax_ok n k i j t Hwt Hk Hi Hj) as (t' & Et & Hwt' & RD & RN).
      exists t'. split; [exact Et|]. unfold Qj. split; [exact Hwt'|].
      intros a b Ha Hb. pose proof Ha as Ha'. pose proof Hb as Hb'.
      unfold in_range in Ha', Hb'. rewrite RD, RN by lia.
      assert (Eik : D t i k = D st i k /\ N t i k = N st i k).
      { destruct (Hformt i k Hi Hk) as [-> ->]. destruct (Hrow i Hi) as [-> ->].
        destruct ((i <? i) || ((i =? i) && (k <? j))); auto. }
      assert (Ekj : D t k j = D st k j).
      { destruct (Hformt k j Hk Hj) as [-> _]. rewrite (Hcol j Hj).
        destruct ((k <? i) || ((k =? i) && (j <? j))); reflexivity. }
      assert (Eij : D t i j = D st i j).
      { destruct (Hformt i j Hi Hj) as [-> _].
        destruct (Z.ltb_spec i i); [lia|]. destruct (Z.ltb_spec j j); [lia|].
        rewrite andb_false_r. reflexivity. }
      assert (Enij : N t i j = N st i j).
      { destruct (Hformt i j Hi Hj) as [_ ->].
        destruct (Z.ltb_spec i i); [lia|]. destruct (Z.ltb_spec j j); [lia|].
        rewrite andb_false_r. reflexivity. }
      destruct Eik as [Eik Enik]. rewrite Eik, Ekj, Eij, Enik.
      fold (rv i j). destruct (Hformt a b Ha Hb) as [-> ->].
      destruct (Z.eqb_spec a i) as [->|Hai], (Z.eqb_spec b j) as [->|Hbj].
      * destruct (Z.ltb_spec i i); [lia|]. destruct (Z.ltb_spec j (j + 1)); [|lia].
        simpl. split; [reflexivity|].
        unfold nv. destruct (relax_fires (D st i k) (D st k j) (D st i j));
          [reflexivity|].
        destruct (Z.ltb_spec j j); [lia|]. reflexivity.
      * simpl. destruct (Z.ltb_spec b j), (Z.ltb_spec b (j + 1)); auto; lia.
      * simpl. auto.
      * simpl. auto.
    + exists s'. split; [exact Es|]. unfold Qi. split; [exact Hws'|].
      intros a b Ha Hb. destruct (Hforms' a b Ha Hb) as [-> ->].
      unfold in_range in Ha, Hb.
      destruct (Z.eqb_spec a i), (Z.ltb_spec a i), (Z.ltb_spec b n),
        (Z.ltb_spec a (i + 1)); simpl; auto; lia.
  - exists st'. split; [exact E|].
    intros a b Ha Hb. destruct (Hform a b Ha Hb) as [_ ->].
    unfold in_range in Ha. destruct (Z.ltb_spec a n); [reflexivity | lia].
Qed.

(** X9. Updating in place is sound.  When [dist[k][k]] is 0 at the start of
    the round of the intermediate vertex [k] (and the entries are [int]
    values), the two inner loops, which overwrite the matrices while they
    read them, leave what one simultaneous update computed from the
    matrices of the start of the round would leave: [dist[a][b]] becomes the
    relaxation value of the old [dist[a][k]], [dist[k][b]], [dist[a][b]],
    and [next[a][b]] the old [next[a][k]] where that relaxation fires. *)
Theorem round_is_simultaneous_update (numVertices k : Z) (st : state) :
  wf numVertices st -> int_entries numVertices st -> in_range numVertices k ->
  D st k k = 0 ->
  exists st', relaxVia numVertices k st = Ok st' /\
    forall a b, in_range numVertices a -> in_range numVertices b ->
      D st' a b = relax_val (D st a k) (D st k b) (D st a b) /\
      N st' a b = (if relax_fires (D st a k) (D st k b) (D st a b)
                   then N st a k else N st a b).
Proof.
  intros Hwf Hint Hk H0.
  destruct (relaxVia_spec numVertices k st Hwf Hint Hk) as (st' & E & _ & _ & _ & HD).
  destruct (relaxVia_next_spec numVertices k st Hwf Hint Hk H0) as (st'' & E' & HN).
  rewrite E in E'. injection E' as <-.
  exists st'. split; [exact E|].
  intros a b Ha Hb. split; [apply HD; assumption | apply HN; assumption].
Qed.

(** The path 0 -> 1 -> 2 with weights 4 and 3, in the round of vertex 1. *)
Lemma round_is_simultaneous_update_witness :
  exists st', relaxVia 3 1 path_state = Ok st' /\
    forall a b, in_range 3 a -> in_range 3 b ->
      D st' a b = relax_val (D path_state a 1) (D path_state 1 b) (D path_state a b) /\
      N st' a b = (if relax_fires (D path_state a 1) (D path_state 1 b) (D path_state a b)
                   then N path_state a 1 else N path_state a b).
Proof.
  apply round_is_simultaneous_update.
  - split; (split; [reflexivity | repeat constructor]).
  - intros i j Hi Hj. unfold in_range in Hi, Hj.
    assert (Hi' : i = 0 \/ i = 1 \/ i = 2) by lia.
    assert (Hj' : j = 0 \/ j = 1 \/ j = 2) by lia.
    destruct Hi' as [-> | [-> | ->]], Hj' as [-> | [-> | ->]];
      vm_compute; split; discriminate.
  - unfold in_range. lia.
  - reflexivity.
Defined.

(** ** Negative cycles and the next matrix, under the weight bound *)

Section Hops.

Variables (n W : Z) (edges : list edge).
Hypothesis Hn : 0 <= n.
Hypothesis Hrange : edges_in_range n edges.
Hypothesis HW : weights_bounded W edges.
Hypothesis HnW : n * W < 1073741824.
Hypothesis Hself : no_positive_self_loop edges.

Lemma hop_init (st0 : state) :
  initMatrices n edges = Ok st0 -> hop_inv edges n st0.
Proof.
  intros E0.
  destruct (initMatrices_ok n edges Hn Hrange) as (st & E & _ & R).
  rewrite E0 in E. injection E as <-.
  intros i j Hi Hj Hset. destruct (R i j Hi Hj) as [RD RN].
  rewrite RN in *. destruct (edge_weight edges i j) as [e|] eqn:Ee; [|congruence].
  split; [exact Hj|]. exists e. split; [exact Ee|].
  destruct (R j j Hj Hj) as [RDj _]. rewrite RD, RDj, Z.eqb_refl.
  pose proof (edge_small n W edges Hrange HW HnW i j e Ee) as He.
  destruct (edge_weight edges j j) as [e'|] eqn:Ee'.
  - pose proof (edge_small n W edges Hrange HW HnW j j e' Ee') as He'.
    apply edge_weight_In in Ee'.
    pose proof Hself as Hs. unfold no_positive_self_loop in Hs.
    rewrite Forall_forall in Hs. specialize (Hs _ Ee' eq_refl). simpl in Hs.
    unfold INT_MAX. lia.
  - unfold INT_MAX. lia.
Qed.

Lemma hop_round (k : Z) (st st' : state) :
  in_range n k -> int_entries n st ->
  (forall i j, in_range n i -> in_range n j ->
               D st i j <> INT_MAX -> Z.abs (D st i j) < 1073741824) ->
  (forall a b, in_range n a -> in_range n b ->
               D st' a b = relax_val (D st a k) (D st k b) (D st a b)) ->
  (forall a b, in_range n a -> in_range n b ->
               N st' a b = if relax_fires (D st a k) (D st k b) (D st a b)
                           then N st a k else N st a b) ->
  hop_inv edges n st -> hop_inv edges n st'.
Proof.
  intros Hk Hint Hsmall HD HN Hhop i j Hi Hj Hset.
  rewrite (HN i j Hi Hj) in *. rewrite (HD i j Hi Hj).
  unfold relax_val.
  destruct (relax_fires (D st i k) (D st k j) (D st i j)) eqn:F.
  - apply relax_fires_true in F. destruct F as (F1 & F2 & _).
    destruct (Hhop i k Hi Hk Hset) as (Hm & e & Ee & _ & Hmk & Hle).
    split; [exact Hm|]. exists e. split; [exact Ee|].
    rewrite (HD _ j Hm Hj).
    pose proof (Hsmall i k Hi Hk F1). pose proof (Hsmall k j Hk Hj F2).
    pose proof (Hsmall _ k Hm Hk Hmk).
    unfold int_add. rewrite wrap_small by (unfold int_range, INT_MIN, INT_MAX; lia).
    rewrite relax_val_exact
      by (try assumption; unfold int_range, INT_MIN, INT_MAX; lia).
    unfold INT_MAX in *. lia.
  - destruct (Hhop i j Hi Hj Hset) as (Hm & e & Ee & Hij & Hmj & Hle).
    split; [exact Hm|]. exists e. split; [exact Ee|].
    rewrite (HD _ j Hm Hj).
    pose proof (relax_val_le (D st (N st i j) k) (D st k j) (D st (N st i j) j)).
    pose proof (Hint _ j Hm Hj) as [_ Hmax]. lia.
Qed.

Lemma relaxAll_hop (st0 : state) :
  initMatrices n edges = Ok st0 ->
  exists st, relaxAll n st0 = Ok st /\ round_hop_inv edges n n st.
Proof.
  intros E0.
  destruct (good_init n W edges Hn Hrange HW HnW Hself st0 E0) as (Hwf0 & Hint0 & Hgood0).
  unfold relaxAll. apply (for_range_inv (round_hop_inv edges n)); [exact Hn | | ].
  - split; [exact Hwf0|]. split; [exact Hint0|]. right.
    split; [exact Hgood0 | apply hop_init; exact E0].
  - intros k s Hk (Hwf & Hint & Hcase).
    destruct (relaxVia_spec n k s Hwf Hint Hk)
      as (s' & E & Hwf' & Hint' & Hmono & Hform).
    exists s'. split; [exact E|]. split; [exact Hwf'|]. split; [exact Hint'|].
    assert (Hneg : neg_diag n s -> neg_diag n s').
    { intros (i & Hi & Hd). exists i. split; [exact Hi|].
      specialize (Hmono i i Hi Hi). lia. }
    destruct Hcase as [[Hnd Hcyc]|[Hgood Hhop]]; [left; auto|].
    destruct (neg_diag_dec n s) as [Hnd|Hdiag].
    { left. split; [auto|].
      destruct Hnd as (v & Hv & Hd). destruct Hgood as [Hsound _].
      destruct (Hsound v v Hv Hv) as (l & Hl & _);
        [pose proof (Hint v v Hv Hv) as [_ Hmax]; unfold INT_MAX in *; lia|].
      exists v, l, (D s v v). auto. }
    right.
    assert (Hkk : D s k k = 0).
    { destruct Hgood as [_ Hcomplete].
      destruct (Hcomplete k k [] 0 Hk Hk) as [_ Hle];
        [split; reflexivity | constructor |].
      specialize (Hdiag k Hk). lia. }
    pose proof (good_bound n W edges Hn Hrange HW HnW k s Hgood Hdiag) as Hsmall.
    split.
    + apply (good_round n edges Hrange k s s' Hk Hgood Hint Hkk Hsmall).
      apply Hform. exact Hkk.
    + destruct (relaxVia_next_spec n k s Hwf Hint Hk Hkk) as (s'' & E'' & HN).
      rewrite E in E''. injection E'' as <-.
      apply (hop_round k s s' Hk Hint Hsmall (Hform Hkk) HN Hhop).
Qed.

(** The result of the function under the weight bound. *)
Lemma floydWarshall_round_hop (dist next : matrix) (flag : bool) :
  floydWarshall n edges = Ok (dist, next, flag) ->
  round_hop_inv edges n n (dist, next).
Proof.
  intros E. apply floydWarshall_inv in E. destruct E as (st0 & E0 & E1 & _).
  destruct (relaxAll_hop st0 E0) as (st & E1' & Hinv).
  rewrite E1 in E1'. injection E1' as <-. exact Hinv.
Qed.

Lemma weights_bounded_int : weights_int edges.
Proof.
  unfold weights_int. apply Forall_forall. intros [[u v] w] Hin.
  pose proof Hrange as Hr. unfold edges_in_range in Hr. rewrite Forall_forall in Hr.
  pose proof HW as Hw. unfold weights_bounded in Hw. rewrite Forall_forall in Hw.
  specialize (Hr _ Hin). specialize (Hw _ Hin). simpl in *.
  unfold in_range, int_range, INT_MIN, INT_MAX in *. nia.
Qed.

End Hops.

Lemma result_good (n W : Z) (edges : list edge) (dist next : matrix) :
  0 <= n -> edges_in_range n edges -> weights_bounded W edges ->
  n * W < 1073741824 -> no_positive_self_loop edges ->
  floydWarshall n edges = Ok (dist, next, false) ->
  good edges n n (dist, next) /\ hop_inv edges n (dist, next).
Proof.
  intros Hn Hrange HW HnW Hself E.
  destruct (floydWarshall_round_hop n W edges Hn Hrange HW HnW Hself dist next false E)
    as (_ & _ & [[(v & Hv & Hneg) _]|Hgood]); [|exact Hgood].
  assert (false = true) by (apply (flag_spec _ _ _ _ _ E); exists v; auto).
  discriminate.
Qed.

(** X10. Under the weight bound of the shortest-path theorem (every weight at
    most [W] in absolute value, [numVertices * W < 2^30], no positive
    self-loop) the flag is exact: it is true if and only if the graph has a
    closed walk of negative weight. *)
Theorem negativeCycle_iff_graph_cycle
        (numVertices W : Z) (edges : list edge) (dist next : matrix)
        (negativeCycle : bool) :
  0 <= numVertices ->
  edges_in_range numVertices edges ->
  weights_bounded W edges ->
  numVertices * W < 1073741824 ->
  no_positive_self_loop edges ->
  floydWarshall numVertices edges = Ok (dist, next, negativeCycle) ->
  (negativeCycle = true <-> has_negative_cycle edges).
Proof.
  intros Hn Hrange HW HnW Hself E.
  pose proof (flag_spec _ _ _ _ _ E) as Hflag.
  pose proof (floydWarshall_round_hop numVertices W edges Hn Hrange HW HnW Hself
                dist next negativeCycle E) as (_ & Hint & Hcase).
  split.
  - intros Htrue. apply Hflag in Htrue. destruct Htrue as (v & Hv & Hneg).
    destruct Hcase as [[_ Hcyc]|[[Hsound _] _]]; [exact Hcyc|].
    destruct (Hsound v v Hv Hv) as (l & Hl & _).
    { unfold D. simpl. unfold INT_MAX. lia. }
    exists v, l, (rd dist v v). auto.
  - intros (v & l & w & [Hw Hlast] & Hneg).
    destruct Hcase as [[Hnd _]|[[_ Hcomplete] _]]; [apply Hflag; exact Hnd|].
    assert (Hv : in_range numVertices v).
    { destruct l as [|a l]; [simpl in Hw; injection Hw as <-; lia|].
      apply walk_cons_inv in Hw. destruct Hw as (e & r & Ee & _).
      apply (edge_weight_range numVertices edges Hrange v a e Ee). }
    destruct (Hcomplete v v l w Hv Hv (conj Hw Hlast)) as [_ Hle].
    { apply (walk_inner_below numVertices edges Hrange l v w Hw). }
    apply Hflag. exists v. split; [exact Hv|]. unfold D in Hle. simpl in Hle. lia.
Qed.

(** The second test graph: its flag is true and the cycle 0 -> 1 -> 2 -> 0
    has weight -6. *)
Lemma negativeCycle_iff_graph_cycle_witness :
  true = true <-> has_negative_cycle edges2.
Proof.
  apply (negativeCycle_iff_graph_cycle 3 3 edges2
           [[-6; -7; -9]; [-5; -6; -8]; [-9; -10; -12]]
           [[1; 1; 1]; [2; 2; 2]; [0; 0; 0]]).
  - lia.
  - unfold edges_in_range, edges2, in_range. repeat constructor; simpl; lia.
  - unfold weights_bounded, edges2. repeat constructor; simpl; lia.
  - lia.
  - unfold no_positive_self_loop, edges2. repeat constructor; simpl; lia.
  - reflexivity.
Defined.

Lemma walk_weight_nonneg (edges : list edge) (l : list Z) :
  Forall (fun e : edge => 0 <= snd e) edges ->
  forall u w, walk_weight edges u l = Some w -> 0 <= w.
Proof.
  intros Hpos. induction l as [|v l IH]; intros u w Hw.
  - simpl in Hw. injection Hw as <-. lia.
  - apply walk_cons_inv in Hw. destruct Hw as (e & r & Ee & Er & ->).
    apply IH in Er. apply edge_weight_In in Ee.
    rewrite Forall_forall in Hpos. apply Hpos in Ee. simpl in Ee. lia.
Qed.

(** The bound on the weights is needed for the flag to be exact: with two
    vertices joined both ways by edges of weight 2^30 the sum 2^31 wraps
    around to a negative [dist[0][0]], and the flag is true although no
    closed walk of the graph has a negative weight. *)
Lemma overflow_fakes_negative_cycle :
  floydWarshall 2 [(0, 1, 1073741824); (1, 0, 1073741824)] =
    Ok ([[INT_MIN; -1073741824]; [-1073741824; INT_MIN]], [[1; 1]; [0; 0]], true) /\
  ~ has_negative_cycle [(0, 1, 1073741824); (1, 0, 1073741824)].
Proof.
  split; [vm_compute; reflexivity|].
  intros (v & l & w & [Hw _] & Hneg).
  apply walk_weight_nonneg in Hw; [lia|].
  repeat constructor; simpl; lia.
Qed.

(** X11. Under the same bound and with the flag false the returned distances
    obey the triangle inequality: when [dist[i][k]] and [dist[k][j]] are
    finite, so is [dist[i][j]], and it is at most their sum. *)
Theorem distances_triangle_inequality
        (numVertices W : Z) (edges : list edge) (dist next : matrix) (i k j : Z) :
  0 <= numVertices ->
  edges_in_range numVertices edges ->
  weights_bounded W edges ->
  numVertices * W < 1073741824 ->
  no_positive_self_loop edges ->
  floydWarshall numVertices edges = Ok (dist, next, false) ->
  in_range numVertices i -> in_range numVertices k -> in_range numVertices j ->
  rd dist i k <> INT_MAX -> rd dist k j <> INT_MAX ->
  rd dist i j <> INT_MAX /\ rd dist i j <= rd dist i k + rd dist k j.
Proof.
  intros Hn Hrange HW HnW Hself E Hi Hk Hj Hik Hkj.
  destruct (result_good numVertices W edges dist next Hn Hrange HW HnW Hself E)
    as [[Hsound Hcomplete] _].
  destruct (Hsound i k Hi Hk Hik) as (l1 & Hl1 & _).
  destruct (Hsound k j Hk Hj Hkj) as (l2 & Hl2 & _).
  pose proof (is_walk_app edges i k j l1 l2 _ _ Hl1 Hl2) as Hl.
  apply (Hcomplete i j (l1 ++ l2) _ Hi Hj Hl).
  destruct Hl as [Hw _]. apply (walk_inner_below numVertices edges Hrange _ i _ Hw).
Qed.

(** The first test graph: from 0 to 4 through 3. *)
Lemma distances_triangle_inequality_witness :
  rd expectedDist1 0 4 <> INT_MAX /\
  rd expectedDist1 0 4 <= rd expectedDist1 0 3 + rd expectedDist1 3 4.
Proof.
  apply (distances_triangle_inequality 5 10 edges1 expectedDist1 expectedNext1 0 3 4).
  - lia.
  - unfold edges_in_range, edges1, in_range. repeat constructor; simpl; lia.
  - unfold weights_bounded, edges1. repeat constructor; simpl; lia.
  - lia.
  - unfold no_positive_self_loop, edges1. repeat constructor; simpl; lia.
  - reflexivity.
  - unfold in_range. lia.
  - unfold in_range. lia.
  - unfold in_range. lia.
  - vm_compute. discriminate.
  - vm_compute. discriminate.
Defined.

(** X12. Under the same bound and with the flag false the next matrix holds
    first steps of shortest paths: for [i <> j] with [dist[i][j]] finite,
    [next[i][j]] is a vertex [m], the graph has the edge from [i] to [m],
    and [dist[i][j]] is the weight of that edge plus [dist[m][j]]. *)
Theorem next_is_first_step_of_shortest_path
        (numVertices W : Z) (edges : list edge) (dist next : matrix) (i j : Z) :
  0 <= numVertices ->
  edges_in_range numVertices edges ->
  weights_bounded W edges ->
  numVertices * W < 1073741824 ->
  no_positive_self_loop edges ->
  floydWarshall numVertices edges = Ok (dist, next, false) ->
  in_range numVertices i -> in_range numVertices j ->
  rd dist i j <> INT_MAX -> i <> j ->
  in_range numVertices (rd next i j) /\
  exists e, edge_weight edges i (rd next i j) = Some e /\
            rd dist i j = e + rd dist (rd next i j) j.
Proof.
  intros Hn Hrange HW HnW Hself E Hi Hj Hfin Hne.
  destruct (result_good numVertices W edges dist next Hn Hrange HW HnW Hself E)
    as [[Hsound Hcomplete] Hhop].
  assert (Hset : rd next i j <> -1).
  { pose proof (weights_bounded_int numVertices W edges Hrange HW HnW) as Hwi.
    destruct (floydWarshall_ok numVertices edges (link_inv numVertices edges) Hn Hrange)
      as (dist' & next' & flag' & E' & _ & Hlink).
    { intros st0 E0 _. apply link_inv_init; assumption. }
    { intros k a b s s'. apply link_inv_step; assumption. }
    rewrite E in E'. injection E' as <- <-.
    destruct Hlink as (_ & Hnf & _).
    destruct (Hnf i j Hi Hj) as [Hs|[Hs|[Hs _]]];
      [exact Hs | contradiction | contradiction]. }
  destruct (Hhop i j Hi Hj Hset) as (Hm & e & Ee & _ & Hmj & Hle).
  unfold D, N in *. simpl in *.
  split; [exact Hm|]. exists e. split; [exact Ee|].
  destruct (Hsound _ j Hm Hj Hmj) as (l & Hl & _).
  pose proof (is_walk_app edges i _ j [rd next i j] l e _ (is_walk_edge edges _ _ _ Ee) Hl)
    as Hwalk.
  destruct (Hcomplete i j _ _ Hi Hj Hwalk) as [_ Hge].
  { destruct Hwalk as [Hw _].
    apply (walk_inner_below numVertices edges Hrange _ i _ Hw). }
  unfold D in Hge. simpl in Hge. lia.
Qed.

(** The first test graph: [next[0][1]] is 3, the edge from 0 to 3 has
    weight 5 and [dist[3][1]] is 3. *)
Lemma next_is_first_step_of_shortest_path_witness :
  in_range 5 (rd expectedNext1 0 1) /\
  exists e, edge_weight edges1 0 (rd expectedNext1 0 1) = Some e /\
            rd expectedDist1 0 1 = e + rd expectedDist1 (rd expectedNext1 0 1) 1.
Proof.
  apply (next_is_first_step_of_shortest_path 5 10 edges1 expectedDist1 expectedNext1 0 1).
  - lia.
  - unfold edges_in_range, edges1, in_range. repeat constructor; simpl; lia.
  - unfold weights_bounded, edges1. repeat constructor; simpl; lia.
  - lia.
  - unfold no_positive_self_loop, edges1. repeat constructor; simpl; lia.
  - reflexivity.
  - unfold in_range. lia.
  - unfold in_range. lia.
  - vm_compute. discriminate.
  - lia.
Defined.

(** ** A second pass changes nothing *)

Lemma relax_idle (n k i j : Z) (st : state) :
  wf n st -> in_range n k -> in_range n i -> in_range n j ->
  relax_fires (D st i k) (D st k j) (D st i j) = false ->
  relax k i j st = Ok st.
Proof.
  intros [Hd Hnx] Hk Hi Hj F. destruct st as [dist next].
  unfold D, relax_fires in F. simpl in *. unfold relax.
  rewrite (mget_ok n dist i k) by assumption. simpl bind.
  destruct (rd dist i k =? INT_MAX); [reflexivity|].
  rewrite (mget_ok n dist k j) by assumption. simpl bind.
  destruct (rd dist k j =? INT_MAX); [reflexivity|].
  rewrite (mget_ok n dist i j) by assumption. simpl bind.
  simpl in F. rewrite F. reflexivity.
Qed.

(** X13. Under the weight bound and with the flag false the returned matrices
    are a fixed point of the triple loop: run over them once more, it
    relaxes nothing and returns them unchanged. *)
Theorem second_pass_changes_nothing
        (numVertices W : Z) (edges : list edge) (dist next : matrix) :
  0 <= numVertices ->
  edges_in_range numVertices edges ->
  weights_bounded W edges ->
  numVertices * W < 1073741824 ->
  no_positive_self_loop edges ->
  floydWarshall numVertices edges = Ok (dist, next, false) ->
  relaxAll numVertices (dist, next) = Ok (dist, next).
Proof.
  intros Hn Hrange HW HnW Hself E.
  destruct (result_good numVertices W edges dist next Hn Hrange HW HnW Hself E)
    as [[Hsound Hcomplete] _].
  pose proof (floydWarshall_round_hop numVertices W edges Hn Hrange HW HnW Hself
                dist next false E) as (Hwf & Hint & _).
  assert (Hdiag : forall v, in_range numVertices v -> 0 <= D (dist, next) v v).
  { intros v Hv. destruct (Z_lt_dec (rd dist v v) 0) as [Hneg|Hpos]; [|exact (proj1 (Z.nlt_ge _ _) Hpos)].
    assert (false = true) by (apply (flag_spec _ _ _ _ _ E); exists v; auto).
    discriminate. }
  pose proof (good_bound numVertices W edges Hn Hrange HW HnW numVertices (dist, next)
                (conj Hsound Hcomplete) Hdiag) as Hsmall.
  destruct (relaxAll_inv numVertices (fun s => s = (dist, next)) (dist, next) Hn Hwf eq_refl)
    as (st & Est & _ & ->); [|exact Est].
  intros k i j s s' Hk Hi Hj Hws -> Es.
  rewrite (relax_idle numVertices k i j (dist, next) Hwf Hk Hi Hj) in Es;
    [injection Es as <-; reflexivity|].
  destruct (relax_fires (D (dist, next) i k) (D (dist, next) k j) (D (dist, next) i j))
    eqn:F; [|reflexivity].
  apply relax_fires_true in F. destruct F as (F1 & F2 & F3).
  pose proof (Hsmall i k Hi Hk F1). pose proof (Hsmall k j Hk Hj F2).
  unfold int_add in F3.
  rewrite wrap_small in F3 by (unfold int_range, INT_MIN, INT_MAX; lia).
  destruct (Hsound i k Hi Hk F1) as (l1 & Hl1 & _).
  destruct (Hsound k j Hk Hj F2) as (l2 & Hl2 & _).
  pose proof (is_walk_app edges i k j l1 l2 _ _ Hl1 Hl2) as Hl.
  destruct (Hcomplete i j (l1 ++ l2) _ Hi Hj Hl) as [_ Hle]; [|lia].
  destruct Hl as [Hw _]. apply (walk_inner_below numVertices edges Hrange _ i _ Hw).
Qed.

(** The third test graph. *)
Lemma second_pass_changes_nothing_witness :
  relaxAll 4 (expectedDist3, expectedNext3) = Ok (expectedDist3, expectedNext3).
Proof.
  apply (second_pass_changes_nothing 4 4 edges3).
  - lia.
  - unfold edges_in_range, edges3, in_range. repeat constructor; simpl; lia.
  - unfold weights_bounded, edges3. repeat constructor; simpl; lia.
  - lia.
  - unfold no_positive_self_loop, edges3. repeat constructor; simpl; lia.
  - reflexivity.
Defined.

(** ** Only the graph matters *)

Lemma square_ext (n : Z) (m1 m2 : matrix) :
  square n m1 -> square n m2 ->
  (forall i j, in_range n i -> in_range n j -> rd m1 i j = rd m2 i j) ->
  m1 = m2.
Proof.
  intros [Hl1 Hr1] [Hl2 Hr2] Heq.
  apply (nth_ext m1 m2 [] []); [lia|].
  intros a Ha.
  assert (Hia : in_range n (Z.of_nat a)) by (unfold in_range; lia).
  pose proof (square_row n m1 _ (conj Hl1 Hr1) Hia) as Hra1.
  pose proof (square_row n m2 _ (conj Hl2 Hr2) Hia) as Hra2.
  rewrite Nat2Z.id in Hra1, Hra2.
  apply (nth_ext _ _ 0 0); [lia|].
  intros b Hb.
  assert (Hjb : in_range n (Z.of_nat b)) by (unfold in_range; lia).
  specialize (Heq _ _ Hia Hjb). unfold rd in Heq. rewrite !Nat2Z.id in Heq.
  exact Heq.
Qed.

(** X14. The result depends on the edge list only through the graph it stands
    for: two valid edge lists that give every pair of vertices the same
    edge (the latest of duplicates counting) give the same matrices and
    flag.  So the order of edges with different endpoints, and the edges
    that a later duplicate overrides, do not matter. *)
Theorem result_depends_on_graph_only (numVertices : Z) (edgesA edgesB : list edge) :
  0 <= numVertices ->
  edges_in_range numVertices edgesA -> edges_in_range numVertices edgesB ->
  (forall u v, in_range numVertices u -> in_range numVertices v ->
               edge_weight edgesA u v = edge_weight edgesB u v) ->
  floydWarshall numVertices edgesA = floydWarshall numVertices edgesB.
Proof.
  intros Hn HA HB Hsame.
  destruct (initMatrices_ok numVertices edgesA Hn HA) as ([dA nA] & EA & [HdA HnA] & RA).
  destruct (initMatrices_ok numVertices edgesB Hn HB) as ([dB nB] & EB & [HdB HnB] & RB).
  simpl in *.
  assert (Ed : dA = dB).
  { apply (square_ext numVertices); auto. intros i j Hi Hj.
    destruct (RA i j Hi Hj) as [RDA _]. destruct (RB i j Hi Hj) as [RDB _].
    unfold D in *. simpl in *. rewrite RDA, RDB, (Hsame i j Hi Hj). reflexivity. }
  assert (En : nA = nB).
  { apply (square_ext numVertices); auto. intros i j Hi Hj.
    destruct (RA i j Hi Hj) as [_ RNA]. destruct (RB i j Hi Hj) as [_ RNB].
    unfold N in *. simpl in *. rewrite RNA, RNB, (Hsame i j Hi Hj). reflexivity. }
  unfold floydWarshall. rewrite EA, EB, Ed, En. reflexivity.
Qed.

(** Two vertices: an overridden edge dropped and the other two swapped. *)
Lemma result_depends_on_graph_only_witness :
  floydWarshall 2 [(0, 1, 3); (0, 1, 7); (1, 0, 2)] =
  floydWarshall 2 [(1, 0, 2); (0, 1, 7)].
Proof.
  apply result_depends_on_graph_only.
  - lia.
  - unfold edges_in_range, in_range. repeat constructor; simpl; lia.
  - unfold edges_in_range, in_range. repeat constructor; simpl; lia.
  - intros u v Hu Hv. unfold in_range in Hu, Hv.
    assert (Hu' : u = 0 \/ u = 1) by lia. assert (Hv' : v = 0 \/ v = 1) by lia.
    destruct Hu' as [-> | ->], Hv' as [-> | ->]; reflexivity.
Defined.

(** * The printed matrices of [runFloydWarshallSample] *)

Module PrintingFacts.

Import Stdlib.Strings.String Stdlib.Strings.Ascii Printing.
Local Open Scope string_scope.

Lemma append_assoc (a b c : string) : (a ++ b) ++ c = a ++ (b ++ c).
Proof.
  induction a as [|x a IH]; simpl; [reflexivity | rewrite IH; reflexivity].
Qed.

(** Two strings free of the character [c], each followed by [c]: equal
    wholes have equal parts. *)
Lemma split_at (c : ascii) (s1 s2 r1 r2 : string) :
  (forall t u, s1 <> t ++ String c u) ->
  (forall t u, s2 <> t ++ String c u) ->
  s1 ++ String c r1 = s2 ++ String c r2 -> s1 = s2 /\ r1 = r2.
Proof.
  revert s2. induction s1 as [|x s1 IH]; intros s2 H1 H2 E.
  - destruct s2 as [|y s2]; simpl in E.
    + injection E as <-. auto.
    + injection E as <- E. exfalso. apply (H2 "" s2). reflexivity.
  - destruct s2 as [|y s2]; simpl in E.
    + injection E as -> E. exfalso. apply (H1 "" s1). reflexivity.
    + injection E as <- E.
      destruct (IH s2) as [-> ->]; auto.
      * intros t u ->. apply (H1 (String x t) u). reflexivity.
      * intros t u ->. apply (H2 (String x t) u). reflexivity.
Qed.

Lemma separator_free_no_char (c : ascii) (s : string) :
  is_separator c = true -> separator_free s = true ->
  forall t u, s <> t ++ String c u.
Proof.
  intros Hc. induction s as [|x s IH]; intros Hs t u E.
  - destruct t; discriminate.
  - simpl in Hs. apply andb_true_iff in Hs. destruct Hs as [Hx Hs].
    destruct t as [|y t]; simpl in E; injection E as -> E.
    + rewrite Hc in Hx. discriminate.
    + exact (IH Hs t u E).
Qed.

Lemma string_of_uint_free (u : Decimal.uint) :
  separator_free (DecimalString.NilEmpty.string_of_uint u) = true.
Proof.
  induction u; simpl; auto.
Qed.

Lemma to_string_free (d : Z) : separator_free (to_string d) = true.
Proof.
  unfold to_string. destruct (Z.to_int d) as [u|u]; simpl.
  - destruct u; try reflexivity; apply (string_of_uint_free (_ u)).
  - destruct u; try reflexivity; apply (string_of_uint_free (_ u)).
Qed.

Lemma to_int_proper (d : Z) :
  Z.to_int d <> Decimal.Pos Decimal.Nil /\ Z.to_int d <> Decimal.Neg Decimal.Nil.
Proof.
  destruct d as [|p|p]; simpl; split; try discriminate;
    intros [= H]; exact (DecimalPos.Unsigned.to_uint_nonnil p H).
Qed.

(** A printed number reads back as the number. *)
Lemma to_string_parses (d : Z) :
  DecimalString.NilZero.int_of_string (to_string d) = Some (Z.to_int d).
Proof.
  destruct (to_int_proper d) as [H1 H2].
  apply DecimalString.NilZero.isi; assumption.
Qed.

Lemma to_string_inj (a b : Z) : to_string a = to_string b -> a = b.
Proof.
  intros E. apply DecimalZ.to_int_inj.
  pose proof (to_string_parses a) as Ha. rewrite E, to_string_parses in Ha.
  congruence.
Qed.

Lemma to_string_not_word (d : Z) (s : string) :
  DecimalString.NilZero.int_of_string s = None -> to_string d <> s.
Proof.
  intros Hs E. rewrite <- E, to_string_parses in Hs. discriminate.
Qed.

Lemma showDist_inj (a b : Z) : showDist a = showDist b -> a = b.
Proof.
  unfold showDist.
  destruct (Z.eqb_spec a INT_MAX) as [->|Ha], (Z.eqb_spec b INT_MAX) as [->|Hb]; intros E.
  - reflexivity.
  - symmetry in E. apply to_string_not_word in E; [contradiction | reflexivity].
  - apply to_string_not_word in E; [contradiction | reflexivity].
  - apply to_string_inj. exact E.
Qed.

Lemma showNext_inj (a b : Z) : showNext a = showNext b -> a = b.
Proof.
  unfold showNext.
  destruct (Z.eqb_spec a (-1)) as [->|Ha], (Z.eqb_spec b (-1)) as [->|Hb]; intros E.
  - reflexivity.
  - symmetry in E. apply to_string_not_word in E; [contradiction | reflexivity].
  - apply to_string_not_word in E; [contradiction | reflexivity].
  - apply to_string_inj. exact E.
Qed.

Lemma showDist_free (d : Z) : separator_free (showDist d) = true.
Proof.
  unfold showDist. destruct (d =? INT_MAX)%Z; [reflexivity | apply to_string_free].
Qed.

Lemma showNext_free (d : Z) : separator_free (showNext d) = true.
Proof.
  unfold showNext. destruct (d =? -1)%Z; [reflexivity | apply to_string_free].
Qed.

Section Rows.

Variable show : Z -> string.
Hypothesis show_inj : forall a b, show a = show b -> a = b.
Hypothesis show_free : forall d, separator_free (show d) = true.

Lemma show_then_space_not_endl (d : Z) (r s : string) :
  show d ++ " " ++ r <> endl ++ s.
Proof.
  pose proof (show_free d) as Hf. destruct (show d) as [|c t]; simpl.
  - discriminate.
  - intros [= -> _]. simpl in Hf. discriminate.
Qed.

Lemma printRow_inj (row1 : list Z) :
  forall row2 rest1 rest2,
    printRow show row1 ++ rest1 = printRow show row2 ++ rest2 ->
    row1 = row2 /\ rest1 = rest2.
Proof.
  induction row1 as [|x row1 IH]; intros [|y row2] rest1 rest2 E.
  - simpl in E. injection E as ->. auto.
  - exfalso. cbn [printRow] in E. rewrite !append_assoc in E.
    symmetry in E. exact (show_then_space_not_endl _ _ _ E).
  - exfalso. cbn [printRow] in E. rewrite !append_assoc in E.
    exact (show_then_space_not_endl _ _ _ E).
  - cbn [printRow] in E. rewrite !append_assoc in E.
    change (" " ++ ?r) with (String " " r) in E.
    apply (split_at " "%char) in E.
    + destruct E as [Exy E]. apply show_inj in Exy. subst y.
      destruct (IH row2 rest1 rest2 E) as [-> ->]. auto.
    + apply separator_free_no_char; [reflexivity | apply show_free].
    + apply separator_free_no_char; [reflexivity | apply show_free].
Qed.

Lemma printRow_nonempty (row : list Z) : printRow show row <> "".
Proof.
  destruct row as [|x row]; simpl; [discriminate|].
  destruct (show x); discriminate.
Qed.

Lemma printMatrix_inj (m1 : matrix) :
  forall m2, printMatrix show m1 = printMatrix show m2 -> m1 = m2.
Proof.
  induction m1 as [|r1 m1 IH]; intros [|r2 m2] E.
  - reflexivity.
  - exfalso. simpl in E. symmetry in E.
    destruct (printRow show r2) eqn:Er; [exact (printRow_nonempty _ Er) | discriminate].
  - exfalso. simpl in E.
    destruct (printRow show r1) eqn:Er; [exact (printRow_nonempty _ Er) | discriminate].
  - simpl in E. apply printRow_inj in E. destruct E as [-> E].
    rewrite (IH m2 E). reflexivity.
Qed.

End Rows.

(** X15. The printed distance matrix determines the matrix: two matrices,
    whatever their shape and entries, that print the same are equal.  In
    particular "INF" is printed for [INT_MAX] only, and rows and entries
    can be told apart in the output. *)
Theorem printed_distance_matrix_determines_matrix (dist1 dist2 : matrix) :
  printMatrix showDist dist1 = printMatrix showDist dist2 -> dist1 = dist2.
Proof.
  apply printMatrix_inj; [exact showDist_inj | exact showDist_free].
Qed.

(** The matrix expected for the third test graph, and its entries
    written out. *)
Lemma printed_distance_matrix_determines_matrix_witness :
  expectedDist3 =
  [[0; -2; 1; -3];
   [2147483647; 0; 3; -1];
   [2147483647; 2147483647; 0; -4];
   [2147483647; 2147483647; 2147483647; 0]].
Proof.
  apply printed_distance_matrix_determines_matrix. reflexivity.
Defined.

(** X16. The printed next matrix determines the matrix: "N/A" is printed for
    -1 only. *)
Theorem printed_next_matrix_determines_matrix (next1 next2 : matrix) :
  printMatrix showNext next1 = printMatrix showNext next2 -> next1 = next2.
Proof.
  apply printMatrix_inj; [exact showNext_inj | exact showNext_free].
Qed.

Lemma printed_next_matrix_determines_matrix_witness :
  expectedNext3 =
  [[-1; 1; 1; 1]; [-1; -1; 2; 2]; [-1; -1; -1; 3]; [-1; -1; -1; -1]].
Proof.
  apply printed_next_matrix_determines_matrix. reflexivity.
Defined.

(** What the function writes for its sample graph. *)
Lemma runFloydWarshallSample_output :
  runFloydWarshallSample =
  Ok ("Distance Matrix:" ++ endl ++
      "0 8 9 5 7 " ++ endl ++
      "INF 0 1 2 4 " ++ endl ++
      "INF INF 0 INF 4 " ++ endl ++
      "INF 3 4 0 2 " ++ endl ++
      "INF INF 6 INF 0 " ++ endl ++
      endl ++ "Next Matrix:" ++ endl ++
      "N/A 3 3 3 3 " ++ endl ++
      "N/A N/A 2 3 3 " ++ endl ++
      "N/A N/A N/A N/A 4 " ++ endl ++
      "N/A 1 1 N/A 4 " ++ endl ++
      "N/A N/A 2 N/A N/A " ++ endl ++
      endl ++ "Negative Cycle: No" ++ endl).
Proof.
  vm_compute. reflexivity.
Qed.

End PrintingFacts.
